(** * Embedding-and-retrieval pipeline of the migration tool

    A shallow embedding of [src/open-ai-embedding.py]: chunking of the
    corpus, ingestion into a flat L2 index, persistence of the artifact
    pair, query-time search, answer synthesis and the interactive loop.

    Modelling conventions.
    - A Python [str] is a list of characters; a character is a code point
      below 256 ([ascii]), with [str.lower] and [str.strip] as Python
      defines them on that range.
    - A floating-point number is the rational it denotes ([Q]); the
      conversion to float32 and the arithmetic of the program round to
      the nearest number of the format, ties to even; infinities and
      not-a-number values are outside the model.  Inside the index the
      distances are exact.
    - A Python exception is a value of [exn]; a call that may raise returns
      an [outcome].  [try ... except Exception] is a [match] on it.
    - The two network services are functions given as section variables,
      and so are what the file system does with the directory creation
      and the two writes of a run (each may raise), and the format of the
      arithmetic on a distance.
    - The disk is the three files the program names.
    - Console output ([print]) is not modelled. *)

From Stdlib Require Import Ascii String DecimalString.
From Stdlib Require DecimalNat Finite.
From Stdlib Require Import List Arith Lia ZArith QArith Qround Qpower Lqa.
From Stdlib Require Import Bool Sorted.
Import ListNotations.

Set Implicit Arguments.
Local Open Scope nat_scope.

(** ** Python strings *)

Definition str := list ascii.

Definition lit (s : string) : str := list_ascii_of_string s.

Definition ord (c : ascii) : nat := nat_of_ascii c.

(** [str.isspace] on one character (code points below 256). *)
Definition is_space (c : ascii) : bool :=
  let n := ord c in
  ((9 <=? n) && (n <=? 13)) || ((28 <=? n) && (n <=? 32))
  || (n =? 133) || (n =? 160).

(** [str.lower] on one character: A-Z and the Latin-1 capitals. *)
Definition lower_char (c : ascii) : ascii :=
  let n := ord c in
  if ((65 <=? n) && (n <=? 90))
     || ((192 <=? n) && (n <=? 222) && negb (n =? 215))
  then ascii_of_nat (n + 32) else c.

Definition lower (s : str) : str := map lower_char s.

Fixpoint lstrip (s : str) : str :=
  match s with
  | c :: s' => if is_space c then lstrip s' else s
  | [] => []
  end.

Definition rstrip (s : str) : str := rev (lstrip (rev s)).

Definition strip (s : str) : str := rstrip (lstrip s).

Definition str_eqb (a b : str) : bool :=
  if list_eq_dec ascii_dec a b then true else false.

(** [x in xs] for a list of strings. *)
Definition str_in (x : str) (xs : list str) : bool := existsb (str_eqb x) xs.

(** [s.startswith(c)] for a one-character prefix. *)
Definition startswith (s : str) (c : ascii) : bool :=
  match s with
  | c' :: _ => if ascii_dec c' c then true else false
  | [] => false
  end.

(** [s[i:j]] for [0 <= i <= j]; the slice is clamped to the string. *)
Definition slice {A} (s : list A) (i j : nat) : list A :=
  firstn (j - i) (skipn i s).

(** [text.replace("\n", " ")]. *)
Definition newline : ascii := ascii_of_nat 10.
Definition space : ascii := ascii_of_nat 32.

Definition replace_newlines (s : str) : str :=
  map (fun c => if ascii_dec c newline then space else c) s.

(** [str(n)] for a non-negative integer. *)
Definition str_of_nat (n : nat) : str :=
  lit (NilEmpty.string_of_uint (Nat.to_uint n)).

(** [sep.join(parts)]. *)
Fixpoint join (sep : str) (parts : list str) : str :=
  match parts with
  | [] => []
  | [p] => p
  | p :: rest => p ++ sep ++ join sep rest
  end.

(** ** Exceptions *)

Inductive exn : Type :=
| FileNotFoundError
| CorruptFile
| ValueError
| IndexError
| AssertionError
| OSError
| ProviderError (msg : str).

Definition exn_str (e : exn) : str :=
  match e with
  | FileNotFoundError => lit "No such file or directory"
  | CorruptFile => lit "could not read artifact"
  | ValueError => lit "invalid value"
  | IndexError => lit "list index out of range"
  | AssertionError => []
  | OSError => lit "could not write"
  | ProviderError msg => msg
  end.

Inductive outcome (A : Type) : Type :=
| Returned (a : A)
| Raised (e : exn).

Arguments Returned {A} a.
Arguments Raised {A} e.

Definition obind {A B} (m : outcome A) (k : A -> outcome B) : outcome B :=
  match m with
  | Returned a => k a
  | Raised e => Raised e
  end.

Declare Scope py_scope.
Delimit Scope py_scope with py.

Notation "x <- m ;; k" := (obind m (fun x => k))
  (at level 61, m at next level, right associativity) : py_scope.

(** [range(start, stop, step)] entered at [start], for a positive step;
    [fuel] bounds the number of values. *)
Fixpoint range_from (fuel start stop step : nat) : list nat :=
  match fuel with
  | O => []
  | S fuel' =>
      if start <? stop
      then start :: range_from fuel' (start + step) stop step
      else []
  end.

(** [range(0, stop, step)]: a zero step raises [ValueError]. *)
Definition py_range (stop step : nat) : outcome (list nat) :=
  match step with
  | O => Raised ValueError
  | S _ => Returned (range_from stop 0 stop step)
  end.

(** [xs[i]] for a Python list and a signed index: a negative index counts
    from the end, an index outside [-len, len) raises [IndexError]. *)
Definition getitem {A} (xs : list A) (i : Z) : outcome A :=
  let n := Z.of_nat (length xs) in
  let j := if (i <? 0)%Z then (i + n)%Z else i in
  if ((0 <=? j)%Z && (j <? n)%Z)%bool then
    match nth_error xs (Z.to_nat j) with
    | Some x => Returned x
    | None => Raised IndexError
    end
  else Raised IndexError.

(** ** Floating-point numbers *)

(** The two formats the program computes in: [np.float32], and the
    Python [float]. *)
Inductive float_format : Type :=
| binary32
| binary64.

(** Number of bits of the significand. *)
Definition precision (fmt : float_format) : Z :=
  match fmt with
  | binary32 => 24
  | binary64 => 53
  end.

(** Exponent of the smallest positive number of the format. *)
Definition emin (fmt : float_format) : Z :=
  match fmt with
  | binary32 => -149
  | binary64 => -1074
  end.

Definition pow2 (k : Z) : Q := (2 ^ k)%Q.

(** The exponent [k] with [2^k <= x < 2^(k+1)], for a positive [x]. *)
Definition ilog2 (x : Q) : Z :=
  let k := (Z.log2 (Qnum x) - Z.log2 (Zpos (Qden x)))%Z in
  if Qle_bool (pow2 k) x then k else (k - 1)%Z.

(** The nearest integer, the even one of two equally near. *)
Definition round_half_even (q : Q) : Z :=
  let f := Qfloor q in
  match (q - inject_Z f ?= 1 # 2)%Q with
  | Lt => f
  | Gt => (f + 1)%Z
  | Eq => if Z.even f then f else (f + 1)%Z
  end.

(** The nearest number of the format to a positive [x]: a multiple of
    the spacing of the format around [x]. *)
Definition round_magnitude (fmt : float_format) (x : Q) : Q :=
  let e := Z.max (ilog2 x - (precision fmt - 1)) (emin fmt) in
  (inject_Z (round_half_even (x / pow2 e)) * pow2 e)%Q.

(** Rounding to the nearest number of the format, ties to even, as a
    fraction in lowest terms.  Small numbers round to the subnormal
    numbers and to 0.  The exponent has no upper bound: a number beyond
    the largest of the format is rounded like any other, where the
    machine gives infinity.  The sum and the quotient of
    [search_similar_chunks] stay below that bound for every distance up
    to the largest float32. *)
Definition round_float (fmt : float_format) (x : Q) : Q :=
  Qred match (x ?= 0)%Q with
       | Eq => 0%Q
       | Gt => round_magnitude fmt x
       | Lt => (- round_magnitude fmt (- x))%Q
       end.

(** [a + b] and [a / b] computed in a format. *)
Definition fadd (fmt : float_format) (a b : Q) : Q :=
  round_float fmt (a + b).

Definition fdiv (fmt : float_format) (a b : Q) : Q :=
  round_float fmt (a / b).

(** [np.array(..., dtype=np.float32)] on one vector. *)
Definition float32_vector (v : list Q) : list Q :=
  map (round_float binary32) v.

(** ** Data model *)

Definition vector := list Q.

(** An embedded chunk: the dictionary with keys [chunk_id], [text] and
    [embedding]. *)
Record Chunk : Type := mkChunk {
  chunk_id : str;
  text : str;
  embedding : vector
}.

(** A search result: the dictionary with keys [chunk_id], [text] and
    [similarity]. *)
Record SearchResult : Type := mkResult {
  result_chunk_id : str;
  result_text : str;
  similarity : Q
}.

(** ** The flat L2 index *)

(** Modelled from the spec: [faiss.IndexFlatL2] is a third-party library
    whose code is not part of the repository.  Following section 4.3 it is
    a flat store of vectors of one dimension [d], searched exhaustively by
    L2 distance, nearest first, ties by insertion order; the distance
    reported is the squared Euclidean one, which orders the vectors as
    the Euclidean distance does.
    As the library does, a search for [k] neighbours of one query returns a
    row of [k] distances and a row of [k] labels, padded with the label
    [-1] when fewer than [k] vectors are stored, and asserts that the
    query has dimension [d] and that [k] is positive. *)
Record IndexFlatL2 : Type := mkIndex {
  d : nat;
  xb : list vector
}.

Definition ntotal (index : IndexFlatL2) : nat := length (xb index).

Definition fvec_L2sqr (x y : vector) : Q :=
  fold_right Qplus 0%Q
    (map (fun p => ((fst p - snd p) * (fst p - snd p))%Q) (combine x y)).

(** Distance reported in a padding slot (the largest float32). *)
Definition FLT_MAX : Q := inject_Z 340282346638528859811704183484516925440.

Fixpoint insert_hit (h : Q * Z) (hs : list (Q * Z)) : list (Q * Z) :=
  match hs with
  | [] => [h]
  | h' :: hs' =>
      if Qle_bool (fst h) (fst h') then h :: hs else h' :: insert_hit h hs'
  end.

Definition sort_hits (hs : list (Q * Z)) : list (Q * Z) := fold_right insert_hit [] hs.

Definition all_hits (index : IndexFlatL2) (x : vector) : list (Q * Z) :=
  combine (map (fvec_L2sqr x) (xb index))
          (map Z.of_nat (seq 0 (ntotal index))).

(** The at most [k] stored vectors nearest to [x], nearest first. *)
Definition nearest (index : IndexFlatL2) (x : vector) (k : nat) : list (Q * Z) :=
  firstn k (sort_hits (all_hits index x)).

Definition index_search (index : IndexFlatL2) (x : vector) (k : nat)
  : outcome (list Q * list Z) :=
  if negb (length x =? d index) then Raised AssertionError
  else if k =? 0 then Raised AssertionError
  else
    let top := nearest index x k in
    let pad := k - length top in
    Returned (map fst top ++ repeat FLT_MAX pad,
              map snd top ++ repeat (-1)%Z pad).

(** [index.add(embeddings)] on a freshly created index of dimension [dim]. *)
Definition index_create_add (dim : nat) (vs : list vector) : IndexFlatL2 :=
  mkIndex dim vs.

(** ** Persisted files *)

Inductive file (A : Type) : Type :=
| Absent
| Unreadable
| Stored (a : A).

Arguments Absent {A}.
Arguments Unreadable {A}.
Arguments Stored {A} a.

(** The three paths the program touches: [src/code_folder/content.txt],
    [src/code_folder/embedding/content.index] and
    [src/code_folder/embedding/embedded_chunks.pkl]. *)
Record Disk : Type := mkDisk {
  content_txt : file str;
  content_index : file IndexFlatL2;
  embedded_chunks_pkl : file (list Chunk)
}.

Definition read_file {A} (f : file A) : outcome A :=
  match f with
  | Absent => Raised FileNotFoundError
  | Unreadable => Raised CorruptFile
  | Stored a => Returned a
  end.

(** Code that reads and writes the disk and may raise: the disk reached
    when an exception is raised is kept. *)
Definition io (A : Type) : Type := Disk -> outcome A * Disk.

Definition io_bind {A B} (m : io A) (k : A -> io B) : io B :=
  fun disk =>
    match m disk with
    | (Returned a, disk') => k a disk'
    | (Raised e, disk') => (Raised e, disk')
    end.

Definition io_lift {A} (m : outcome A) : io A := fun disk => (m, disk).

Declare Scope io_scope.
Delimit Scope io_scope with io.

Notation "x <- m ;; k" := (io_bind m (fun x => k))
  (at level 61, m at next level, right associativity) : io_scope.

Definition read_content : io str :=
  fun disk => (read_file (content_txt disk), disk).

(** What the file system does with a write: it completes, or it raises
    and leaves the file either as it was or damaged. *)
Inductive write_result : Type :=
| Written
| WriteFailed (e : exn) (damaged : bool).

(** What the file system does with the three operations of an ingestion
    run: creating the output directory and writing the two files. *)
Record Storage : Type := mkStorage {
  makedirs_result : outcome unit;
  index_write : write_result;
  chunks_write : write_result
}.

(** The file a write leaves. *)
Definition written {A} (result : write_result) (value : A) (before : file A)
  : file A :=
  match result with
  | Written => Stored value
  | WriteFailed _ true => Unreadable
  | WriteFailed _ false => before
  end.

Definition write_outcome (result : write_result) : outcome unit :=
  match result with
  | Written => Returned tt
  | WriteFailed e _ => Raised e
  end.

(** [os.makedirs(output_dir, exist_ok=True)]. *)
Definition makedirs (storage : Storage) : io unit :=
  fun disk => (makedirs_result storage, disk).

(** [faiss.write_index(index, ".../content.index")]. *)
Definition write_index (storage : Storage) (index : IndexFlatL2) : io unit :=
  fun disk =>
    (write_outcome (index_write storage),
     mkDisk (content_txt disk)
            (written (index_write storage) index (content_index disk))
            (embedded_chunks_pkl disk)).

(** [with open(".../embedded_chunks.pkl", "wb") as f:
    pickle.dump(embedded_chunks, f)]. *)
Definition pickle_dump (storage : Storage) (embedded_chunks : list Chunk)
  : io unit :=
  fun disk =>
    (write_outcome (chunks_write storage),
     mkDisk (content_txt disk) (content_index disk)
            (written (chunks_write storage) embedded_chunks
                     (embedded_chunks_pkl disk))).

(** ** String constants of the program *)

Definition no_information : str :=
  lit "I couldn't find any relevant information in the codebase to answer your question.".

Definition sorry_prefix : str :=
  lit "Sorry, I encountered an error while trying to answer your question: ".

Definition context_separator : str :=
  [newline; newline] ++ lit "---" ++ [newline; newline].

Definition prompt_head : str :=
  lit "You are an expert software engineer.
        Based on the following code context, answer the question.
        
        Context:
        ".

Definition prompt_middle : str :=
  lit "

        Question: ".

Definition prompt_tail : str :=
  lit "
        
        # Keep below thing in mind while answering the question:
        - Your final output should always be a concise answer to the question.
        - Also provide the relevant code snippets if necessary.
        - Generate the final a concise answer in markdown format.
        ".

Definition quit_words : list str := [lit "quit"; lit "exit"; lit "q"].

Definition yes_words : list str := [lit "y"; lit "yes"].

Definition question_mark : ascii := ascii_of_nat 63.

(** The chunk size fixed in [process_content_file]. *)
#[warning="-abstract-large-number"] Definition max_chunk_size : nat := 10000.

(** ** The program *)

Section Pipeline.

(** [client.embeddings.create(input=[text], model=...).data[0].embedding] *)
Variable embeddings_create : str -> outcome vector.

(** [client.chat.completions.create(...).choices[0].message.content] for
    a single user message. *)
Variable chat_create : str -> outcome str.

(** What the file system does with the directory creation and the two
    writes of an ingestion run. *)
Variable storage : Storage.

(** The format in which [1.0 / (1.0 + distance)] is computed for a
    [np.float32] distance: [binary32], or [binary64] where NumPy
    promotes the sum with a Python [float]. *)
Variable arith : float_format.

Definition get_embedding (text : str) : outcome vector :=
  embeddings_create (replace_newlines text).

Definition store_in_faiss (embedded_chunks : list Chunk)
  : outcome (IndexFlatL2 * list Chunk) :=
  match embedded_chunks with
  | [] => Raised IndexError
  | first :: _ =>
      let dimension := length (embedding first) in
      if forallb (fun chunk => length (embedding chunk) =? dimension)
                 embedded_chunks
      then Returned (index_create_add dimension
                       (map (fun chunk => float32_vector (embedding chunk))
                            embedded_chunks),
                     embedded_chunks)
      else Raised ValueError
  end.

(** The loop [for i, chunk in enumerate(chunks)] of the chunked branch,
    entered at position [i] with the chunks embedded so far. *)
Fixpoint embed_chunks (i : nat) (chunks : list str)
         (embedded_chunks : list Chunk) : outcome (list Chunk) :=
  match chunks with
  | [] => Returned embedded_chunks
  | chunk :: rest =>
      (embedding <- get_embedding chunk ;;
       embed_chunks (S i) rest
         (embedded_chunks ++ [mkChunk (str_of_nat (i + 1)) chunk embedding]))%py
  end.

(** The body of the [try] in [process_content_file], for a chunk size
    [max_size]. *)
Definition process_content_body (max_size : nat) : io unit :=
  (content <- read_content ;;
   if max_size <? length content then
     chunks <- io_lift
       (starts <- py_range (length content) max_size ;;
        Returned (map (fun i => slice content i (i + max_size)) starts))%py ;;
     embedded_chunks <- io_lift (embed_chunks 0 chunks []) ;;
     stored <- io_lift (store_in_faiss embedded_chunks) ;;
     _ <- makedirs storage ;;
     _ <- write_index storage (fst stored) ;;
     pickle_dump storage embedded_chunks
   else
     embedding <- io_lift (get_embedding content) ;;
     let embedded_chunks := [mkChunk (lit "full") content embedding] in
     stored <- io_lift (store_in_faiss embedded_chunks) ;;
     _ <- makedirs storage ;;
     _ <- write_index storage (fst stored) ;;
     pickle_dump storage embedded_chunks)%io.

Definition process_content_file_at (max_size : nat) (disk : Disk)
  : bool * Disk :=
  match process_content_body max_size disk with
  | (Returned _, disk') => (true, disk')
  | (Raised _, disk') => (false, disk')
  end.

Definition process_content_file : Disk -> bool * Disk :=
  process_content_file_at max_chunk_size.

Definition load_faiss_index (disk : Disk)
  : option IndexFlatL2 * option (list Chunk) :=
  match (index <- read_file (content_index disk) ;;
         embedded_chunks <- read_file (embedded_chunks_pkl disk) ;;
         Returned (index, embedded_chunks))%py with
  | Returned (index, embedded_chunks) => (Some index, Some embedded_chunks)
  | Raised _ => (None, None)
  end.

(** [1.0 / (1.0 + distance)] *)
Definition similarity_of_distance (distance : Q) : Q :=
  fdiv arith 1 (fadd arith 1 distance).

(** The loop [for i, idx in enumerate(indices[0])] of
    [search_similar_chunks], entered at position [i]. *)
Fixpoint collect_results (embedded_chunks : list Chunk)
         (distances : list Q) (i : nat) (indices : list Z)
         (results : list SearchResult) : outcome (list SearchResult) :=
  match indices with
  | [] => Returned results
  | idx :: rest =>
      if ((idx <? Z.of_nat (length embedded_chunks))%Z && (idx >=? 0)%Z)%bool
      then
        (chunk <- getitem embedded_chunks idx ;;
         distance <- getitem distances (Z.of_nat i) ;;
         collect_results embedded_chunks distances (S i) rest
           (results ++ [mkResult (chunk_id chunk) (text chunk)
                          (similarity_of_distance distance)]))%py
      else collect_results embedded_chunks distances (S i) rest results
  end.

Definition search_body (disk : Disk) (query : str) (top_k : nat)
  : outcome (list SearchResult) :=
  match load_faiss_index disk with
  | (Some index, Some embedded_chunks) =>
      (query_embedding <- get_embedding query ;;
       let query_vector := float32_vector query_embedding in
       found <- index_search index query_vector top_k ;;
       collect_results embedded_chunks (fst found) 0 (snd found) [])%py
  | _ => Returned []
  end.

Definition search_similar_chunks (disk : Disk) (query : str) (top_k : nat)
  : list SearchResult :=
  match search_body disk query top_k with
  | Returned results => results
  | Raised _ => []
  end.

Definition answer_body (disk : Disk) (query : str) : outcome str :=
  let results := search_similar_chunks disk query 5 in
  match results with
  | [] => Returned no_information
  | _ :: _ =>
      let context := join context_separator (map result_text results) in
      let prompt :=
        prompt_head ++ context ++ prompt_middle ++ query ++ prompt_tail in
      chat_create prompt
  end.

Definition answer_question (disk : Disk) (query : str) : str :=
  match answer_body disk query with
  | Returned answer => answer
  | Raised e => sorry_prefix ++ exn_str e
  end.

(** *** The interactive loop *)

(** What one pass of the [while True] loop does with the line read at
    the main prompt. *)
Inductive action : Type :=
| Exit
| Reprompt
| Ask (question : str)
| Search (query : str) (top_k : nat).

Definition dispatch (query : str) : action :=
  if str_in (lower query) quit_words then Exit
  else if match strip query with [] => true | _ => false end then Reprompt
  else if startswith (strip query) question_mark then
    let question := strip (slice (strip query) 1 (length (strip query))) in
    match question with
    | [] => Reprompt
    | _ => Ask question
    end
  else Search query 3.

(** Where the session waits for input: at the main prompt, at the
    [See full content?] prompt of a result (with the results still to
    show), or nowhere once the loop is left. *)
Inductive prompt_state : Type :=
| MainPrompt
| SeeMorePrompt (result : SearchResult) (pending : list SearchResult)
| Finished.

Inductive event : Type :=
| Answered (question answer : str)
| Searched (query : str) (top_k : nat) (results : list SearchResult)
| FullContent (shown : str).

Definition show_results (results : list SearchResult) : prompt_state :=
  match results with
  | [] => MainPrompt
  | result :: pending => SeeMorePrompt result pending
  end.

Definition session_step (disk : Disk) (st : prompt_state) (line : str)
  : prompt_state * list event :=
  match st with
  | MainPrompt =>
      match dispatch line with
      | Exit => (Finished, [])
      | Reprompt => (MainPrompt, [])
      | Ask question =>
          (MainPrompt, [Answered question (answer_question disk question)])
      | Search query top_k =>
          let results := search_similar_chunks disk query top_k in
          (show_results results, [Searched query top_k results])
      end
  | SeeMorePrompt result pending =>
      (show_results pending,
       if str_in (lower line) yes_words
       then [FullContent (result_text result)] else [])
  | Finished => (Finished, [])
  end.

(** [interactive_search] fed the lines of the standard input. *)
Fixpoint interactive_search_from (disk : Disk) (st : prompt_state)
         (lines : list str) : prompt_state * list event :=
  match lines with
  | [] => (st, [])
  | line :: rest =>
      let (st', out) := session_step disk st line in
      let (final, out') := interactive_search_from disk st' rest in
      (final, out ++ out')
  end.

Definition interactive_search (disk : Disk) (lines : list str)
  : prompt_state * list event :=
  interactive_search_from disk MainPrompt lines.

End Pipeline.

(** ** The entry point and the result preview *)

Section Entry.

Variable embeddings_create : str -> outcome vector.
Variable chat_create : str -> outcome str.
Variable storage : Storage.
Variable arith : float_format.

(** [os.path.exists(path)] *)
Definition path_exists {A} (f : file A) : bool :=
  match f with
  | Absent => false
  | _ => true
  end.

(** The [__main__] block, fed the lines of the standard input: the disk
    it leaves and, unless it stopped with [exit(1)], the session. *)
Definition main_block (disk : Disk) (lines : list str)
  : Disk * option (prompt_state * list event) :=
  if negb (path_exists (content_index disk)) then
    let (success, disk') :=
      process_content_file embeddings_create storage disk in
    if negb success then (disk', None)
    else (disk',
          Some (interactive_search embeddings_create chat_create arith
                  disk' lines))
  else (disk,
        Some (interactive_search embeddings_create chat_create arith
                disk lines)).

End Entry.

Definition preview_length : nat := 300.

(** [text[:preview_length] + "..." if len(text) > preview_length else text] *)
Definition preview (text : str) : str :=
  if preview_length <? length text
  then slice text 0 preview_length ++ lit "..."
  else text.

(** ** The migration-plan script *)

(** [src/main.py]: two prompts built around the directory tree and the
    file contents that [ingest] returned when the module was loaded, one
    chat request for each, and the report file written by [main]. *)
Module MigrationPlan.

Definition analysis_prompt_head : str :=
  lit "
    You are an expert Java developer specializing in Spring Boot and MongoDB migrations.
    
    Analyze the following Java code structure and provide a detailed migration plan to convert this exact given project to a Spring Boot application using MongoDB:
    Here `tree` is the directory structure of the Java code and `content` is the content of the Java files. You need to analyze the code and provide a detailed migration plan to migrate this same exact project in to Sprting boot app.
    
    Java code directory structure:
    ".

Definition analysis_prompt_middle : str :=
  lit "

    Java Files:
    ".

Definition analysis_prompt_tail : str :=
  lit "
    
    ## Project: DB Migration Tool
    - I am building db migration tool in python programming language. I have given code reposiotory which was built in Java and runs on JBoss EAP application server and it has relational database.
    - This tool will analyze this code reposiotry and create nice readmd.md file with detailed steps on how to migrate this to Sptring Bott + mongo db.
    - Please find more detailed information below 

    ## Please keep in mind below steps when generating code for this tool
    - First analyze the given code and then using Open AI llm tool you need to generate readme.md file where you have to list down all the stpes on how to migrate this app under the folder tool to new stack using Sptring Bott + mongo db.
    - The target stack to modernise this application is the latest stable version of Spring Boot based on Java 21 working with MongoDB, moving away from the Relational database.


    ## The migration plan should include:
    1. Steps to set up a new Spring Boot project
    2. How to migrate the existing Java classes to Spring Boot components
    3. Changes required to switch from a relational database to MongoDB
    4. Any necessary configuration changes
    5. Suggestions for updating the build process
    6. Testing considerations
    ".

Definition schema_prompt_head : str :=
  lit "
    You are an expert in Mongo DB database design, specialized in MongoDB schema design. You will help me to create details plan to migrate this relational database to mongo db document database. You should generate end output in readme.md file format.
    
    Analyze the following Java code structure and suggest a MongoDB schema based on the current relational database structure:
    Here `tree` is the directory structure of the Java code and `content` is the content of the Java files. You need to analyze the code and provide a detailed migration plan to migrate relation DB in to Mongo DB database.
    
    Java code directory structure:
    ".

Definition schema_prompt_middle : str :=
  lit "

    Java Files:
    ".

Definition schema_prompt_tail : str :=
  lit "
    
    ## Project: DB Migration Tool
    - I am building db migration tool in python programming language. I have given code reposiotory which was built in Java and runs on JBoss EAP application server and it has relational database.
    - This tool will analyze this code reposiotry and create nice readmd.md file with detailed steps on how to migrate this to Sptring Bott + mongo db.
    - Please find more detailed information below 

    ## Please keep in mind below steps when generating code for this tool
    - First analyze the given code and then using Open AI llm tool you need to generate readme.md file where you have to list down all the stpes on how to migrate this app under the folder tool to new stack using Sptring Bott + mongo db.
    - The target stack to modernise this application is the latest stable version of Spring Boot based on Java 21 working with MongoDB, moving away from the Relational database.
    - Stretch goal: The tool can also suggest a schema for MongoDB based on the static code scan. It would be great.


    ## Provide a detailed MongoDB schema suggestion, including:
    1. Document structures
    2. Embedded documents vs. references
    3. Indexing recommendations
    4. Any necessary data transformations
    
    # Please provide a detailed MongoDB schema suggestion based on the current relational database structure. Make sure to include below steps in your mongodb schema migration plan.
    - MongoDB Migration Strategy must include below steps in detailed manner:
        - You must include JAVA files to change in order to migrate this to MongoDB
        - MongoDB Schema Design
        - Data Model
        - Indexing Strategy
        - Embedded vs. Referenced Documents
        - Configuration Changes
        - Create MongoDB initialization script
        - Detailed Implementation Steps
        - MongoDB Dependencies 
        - Testing Strategy
    ".

Definition analysis_developer : str :=
  lit "You are an expert Java developer specializing in Spring Boot and MongoDB migrations.".

Definition schema_developer : str :=
  lit "You are an expert in database design, specializing in MongoDB schema design.".

Definition title_heading : str :=
  lit "# Migration Plan: Java to Spring Boot with MongoDB" ++ [newline] ++ [newline].

Definition analysis_heading : str :=
  lit "## Project Analysis" ++ [newline] ++ [newline].

Definition plan_heading : str :=
  lit "## Migration Plan" ++ [newline] ++ [newline].

Definition schema_heading : str :=
  [newline] ++ [newline] ++ lit "## Suggested MongoDB Schema" ++ [newline] ++ [newline].

(** One message of a chat request: its role and its content. *)
Definition message : Type := (str * str)%type.

Inductive main_end : Type :=
| Completed
| TypeErrorRaised.

Section Script.

(** The second and third components of [ingest("code/kitchensink")]. *)
Variable tree : str.
Variable content : str.

(** [client.chat.completions.create(model="gpt-4.1", messages=...)
    .choices[0].message.content] *)
Variable chat_completions : list message -> outcome str.

(** The function returns [None] when the [except] branch is taken. *)
Definition analyze_java_code : option str :=
  let prompt :=
    analysis_prompt_head ++ tree ++ analysis_prompt_middle ++ content
    ++ analysis_prompt_tail in
  match chat_completions
          [(lit "developer", analysis_developer); (lit "user", prompt)] with
  | Returned answer => Some answer
  | Raised _ => None
  end.

Definition suggest_mongodb_schema : option str :=
  let prompt :=
    schema_prompt_head ++ tree ++ schema_prompt_middle ++ content
    ++ schema_prompt_tail in
  match chat_completions
          [(lit "developer", schema_developer); (lit "user", prompt)] with
  | Returned answer => Some answer
  | Raised _ => None
  end.

(** [main]: how it ends, and the content of [Migration_Plan.md] when the
    [with] block is left.  [f.write(None)] raises [TypeError]; what was
    written before stays in the file. *)
Definition main : main_end * str :=
  let migration_plan := analyze_java_code in
  let mongodb_schema := suggest_mongodb_schema in
  let f := [] in
  let f := f ++ title_heading in
  let f := f ++ analysis_heading in
  let f := f ++ plan_heading in
  match migration_plan with
  | None => (TypeErrorRaised, f)
  | Some plan =>
      let f := f ++ plan in
      let f := f ++ schema_heading in
      match mongodb_schema with
      | None => (TypeErrorRaised, f)
      | Some schema => (Completed, f ++ schema)
      end
  end.

End Script.

End MigrationPlan.

(** ** Vocabulary of the statements *)

(** The guard [idx < len(embedded_chunks) and idx >= 0]. *)
Definition valid_position (embedded_chunks : list Chunk) (idx : Z) : bool :=
  ((idx <? Z.of_nat (length embedded_chunks))%Z && (idx >=? 0)%Z)%bool.

(** The result built for one label and its distance: none for a label
    that is not a position of the chunk list. *)
Definition result_at (arith : float_format) (embedded_chunks : list Chunk)
           (idx : Z) (distance : Q) : list SearchResult :=
  if valid_position embedded_chunks idx then
    match nth_error embedded_chunks (Z.to_nat idx) with
    | Some chunk =>
        [mkResult (chunk_id chunk) (text chunk)
           (similarity_of_distance arith distance)]
    | None => []
    end
  else [].

Definition collected (arith : float_format) (embedded_chunks : list Chunk)
           (indices : list Z) (distances : list Q) : list SearchResult :=
  flat_map (fun p => result_at arith embedded_chunks (fst p) (snd p))
           (combine indices distances).

(** Order of two hits of the index by their distance. *)
Definition hit_le (a b : Q * Z) : Prop := (fst a <= fst b)%Q.

(** The three file-system operations that end an ingestion run. *)
Definition write_artifacts (storage : Storage) (index : IndexFlatL2)
           (embedded_chunks : list Chunk) : io unit :=
  (_ <- makedirs storage ;;
   _ <- write_index storage index ;;
   pickle_dump storage embedded_chunks)%io.

(** What [process_content_file] returns after those operations. *)
Definition report {A} (ended : outcome A * Disk) : bool * Disk :=
  match ended with
  | (Returned _, disk) => (true, disk)
  | (Raised _, disk) => (false, disk)
  end.

(** The texts a run of the ingestion sends to the embedder, in order. *)
Definition planned_chunks (max_size : nat) (content : str) : list str :=
  if max_size <? length content
  then map (fun i => slice content i (i + max_size))
           (range_from (length content) 0 (length content) max_size)
  else [content].

(** The [load] operation in the words of the specification (section 4.4):
    typed errors, and a check of the count invariant. *)
Inductive load_error : Type :=
| ArtifactNotFoundError
| ArtifactCorruptError.

Definition is_absent {A} (f : file A) : bool :=
  match f with Absent => true | _ => false end.

Definition IndexStore_load (disk : Disk)
  : load_error + (IndexFlatL2 * list Chunk) :=
  if is_absent (content_index disk) || is_absent (embedded_chunks_pkl disk)
  then inl ArtifactNotFoundError
  else
    match content_index disk, embedded_chunks_pkl disk with
    | Stored index, Stored chunks =>
        if length chunks =? ntotal index
        then inr (index, chunks)
        else inl ArtifactCorruptError
    | _, _ => inl ArtifactCorruptError
    end.


(** ** Vocabulary of the further statements *)

Definition infix_of (part whole : str) : Prop :=
  exists before after, whole = before ++ part ++ after.

(** The texts of the chunk records on the disk. *)
Definition persisted_texts (disk : Disk) : list str :=
  match embedded_chunks_pkl disk with
  | Stored chunks => map text chunks
  | _ => []
  end.

(** What the session may do: search for a line that is not blank, with
    [top_k = 3]; ask a question that is not empty and carries no white
    space around it; show the whole text of a chunk on the disk. *)
Definition event_ok (embeddings_create : str -> outcome vector)
           (chat_create : str -> outcome str) (arith : float_format)
           (disk : Disk) (e : event)
  : Prop :=
  match e with
  | Answered question answer =>
      question <> [] /\ strip question = question
      /\ answer
         = answer_question embeddings_create chat_create arith disk question
  | Searched query top_k results =>
      top_k = 3 /\ strip query <> []
      /\ results = search_similar_chunks embeddings_create arith disk query 3
  | FullContent shown => In shown (persisted_texts disk)
  end.

Definition pending_results (st : prompt_state) : list SearchResult :=
  match st with
  | SeeMorePrompt result pending => result :: pending
  | _ => []
  end.

(** The events of answering the [See full content?] prompts of the given
    results with the given lines, one line for each result. *)
Fixpoint shown_contents (results : list SearchResult) (lines : list str)
  : list event :=
  match results, lines with
  | result :: results', line :: lines' =>
      (if str_in (lower line) yes_words
       then [FullContent (result_text result)] else [])
      ++ shown_contents results' lines'
  | _, _ => []
  end.

(** Number of windows of size [m] needed to cover [n] positions. *)
Definition windows_count (n m : nat) : nat := (n + m - 1) / m.

(** ** Fixtures: stand-ins for the services, and small disks *)

Module Fixture.

(** The mocked embedder of section 8: the character count, as a vector
    of dimension one. *)
Definition count_embedder (text : str) : outcome vector :=
  Returned [inject_Z (Z.of_nat (length text))].

Definition failing_embedder (text : str) : outcome vector :=
  Raised (ProviderError (lit "rate limit exceeded")).

Definition failing_chat (prompt : str) : outcome str :=
  Raised (ProviderError (lit "service unavailable")).

(** A file system on which every operation completes. *)
Definition sound : Storage := mkStorage (Returned tt) Written Written.

(** A file system on which the chunk file cannot be written, and is
    left damaged. *)
Definition torn : Storage :=
  mkStorage (Returned tt) Written (WriteFailed OSError true).

Definition corpus (content : string) : Disk :=
  mkDisk (Stored (lit content)) Absent Absent.


Definition three_chunks : list Chunk :=
  [mkChunk (lit "1") (lit "a") [1%Q];
   mkChunk (lit "2") (lit "bb") [2%Q];
   mkChunk (lit "3") (lit "ccc") [3%Q]].

Definition three_index : IndexFlatL2 := mkIndex 1 [[1%Q]; [2%Q]; [3%Q]].

Definition warm : Disk :=
  mkDisk Absent (Stored three_index) (Stored three_chunks).

(** An artifact pair violating the count invariant: three vectors, one
    chunk record. *)
Definition mismatched : Disk :=
  mkDisk Absent (Stored three_index)
         (Stored [mkChunk (lit "1") (lit "a") [1%Q]]).

(** A corpus to ingest next to the artifact pair of an earlier run. *)
Definition reingest : Disk :=
  mkDisk (Stored (lit "hello world"))
         (Stored three_index) (Stored three_chunks).

Definition index_only : Disk :=
  mkDisk Absent (Stored three_index) Absent.

(** What ingesting [hello world] in chunks of 5 leaves, with the
    counting embedder. *)
Definition hello_chunks : list Chunk :=
  [mkChunk (lit "1") (lit "hello") [5%Q];
   mkChunk (lit "2") (lit " worl") [5%Q];
   mkChunk (lit "3") (lit "d") [1%Q]].

Definition hello_disk : Disk :=
  mkDisk (Stored (lit "hello world"))
         (Stored (mkIndex 1 [[5%Q]; [5%Q]; [1%Q]])) (Stored hello_chunks).

(** An embedder whose vectors are as long as the text. *)
Definition length_embedder (text : str) : outcome vector :=
  Returned (repeat 0%Q (length text)).

Definition echo_chat (prompt : str) : outcome str := Returned prompt.

(** A chat service that answers the analysis request only. *)
Definition plan_only_chat (messages : list MigrationPlan.message)
  : outcome str :=
  match messages with
  | (_, developer) :: _ =>
      if str_eqb developer MigrationPlan.analysis_developer
      then Returned (lit "the plan")
      else Raised (ProviderError (lit "service unavailable"))
  | [] => Raised (ProviderError (lit "no message"))
  end.

Definition index_unreadable : Disk :=
  mkDisk Absent Unreadable (Stored three_chunks).

(** An embedder of fine grain: the character count in units of 2^-30. *)
Definition fine_embedder (text : str) : outcome vector :=
  Returned [(inject_Z (Z.of_nat (length text)) / inject_Z (2 ^ 30))%Q].

(** Two chunks whose vectors are 2^-30 apart. *)
Definition close_pair : Disk :=
  mkDisk Absent
         (Stored (mkIndex 1 [[0%Q]; [(1 # 1073741824)%Q]]))
         (Stored [mkChunk (lit "1") (lit "") [0%Q];
                  mkChunk (lit "2") (lit "x") [(1 # 1073741824)%Q]]).


End Fixture.

(** * Properties *)

Unset Implicit Arguments.

(** ** Windows of a list *)

Section Windows.

Context {A : Type}.
Variable content : list A.
Variable m : nat.

Lemma slice_window i : slice content i (i + m) = firstn m (skipn i content).
Proof. unfold slice. f_equal. lia. Qed.

Lemma window_length i : length (slice content i (i + m)) <= m.
Proof. rewrite slice_window. apply firstn_le_length. Qed.

Lemma range_from_covers fuel : forall start,
  0 < m ->
  length content - start <= fuel ->
  concat (map (fun i => slice content i (i + m))
              (range_from fuel start (length content) m))
  = skipn start content.
Proof.
  induction fuel as [|fuel IH]; intros start Hm Hfuel; simpl.
  - symmetry. apply skipn_all2. lia.
  - destruct (start <? length content) eqn:Hlt.
    + apply Nat.ltb_lt in Hlt. simpl.
      rewrite IH by lia. rewrite slice_window.
      rewrite <- (firstn_skipn m (skipn start content)) at 2.
      rewrite skipn_skipn. do 2 f_equal. lia.
    + apply Nat.ltb_ge in Hlt. symmetry. now apply skipn_all2.
Qed.

Lemma range_from_arithmetic fuel : forall start stop,
  range_from fuel start stop m
  = map (fun j => start + j * m)
        (seq 0 (length (range_from fuel start stop m))).
Proof.
  induction fuel as [|fuel IH]; intros start stop; simpl; trivial.
  destruct (start <? stop); simpl; trivial.
  f_equal; [lia|].
  rewrite <- seq_shift, map_map. rewrite IH at 1.
  apply map_ext. intros j. lia.
Qed.

End Windows.

(** The planned chunks are the windows of the corpus, whenever the
    chunk size can be used at all. *)
Lemma planned_chunks_windows (max_size : nat) (content : str) :
  0 < max_size \/ length content <= max_size ->
  let planned := planned_chunks max_size content in
  planned = map (fun j => slice content (j * max_size)
                               (j * max_size + max_size))
                (seq 0 (length planned))
  /\ concat planned = content
  /\ Forall (fun chunk => length chunk <= max_size) planned
  /\ (length content <= max_size -> planned = [content]).
Proof.
  intros Hm. unfold planned_chunks.
  destruct (max_size <? length content) eqn:Hlt; cbv zeta.
  - apply Nat.ltb_lt in Hlt. assert (Hpos : 0 < max_size) by lia.
    repeat split.
    + rewrite length_map.
      rewrite range_from_arithmetic at 1.
      now rewrite map_map.
    + rewrite range_from_covers; trivial. lia.
    + apply Forall_forall. intros chunk Hin.
      apply in_map_iff in Hin. destruct Hin as (i & <- & _).
      now apply window_length.
    + lia.
  - apply Nat.ltb_ge in Hlt. cbn [length seq map concat].
    unfold slice. rewrite Nat.add_0_l, Nat.sub_0_r, app_nil_r.
    cbn [skipn]. rewrite firstn_all2 by trivial.
    repeat split; trivial. now constructor.
Qed.

(** ** Ingestion *)

(** The writes keep the corpus file, and complete only when the
    directory creation and both writes do. *)
Lemma write_artifacts_corpus storage index cs disk :
  content_txt (snd (write_artifacts storage index cs disk))
  = content_txt disk.
Proof.
  unfold write_artifacts, io_bind, makedirs, write_index, pickle_dump.
  destruct (makedirs_result storage); cbn; trivial.
  destruct (index_write storage); cbn; trivial.
Qed.

Lemma write_artifacts_returned storage index cs disk u :
  fst (write_artifacts storage index cs disk) = Returned u ->
  makedirs_result storage = Returned tt
  /\ index_write storage = Written
  /\ chunks_write storage = Written
  /\ snd (write_artifacts storage index cs disk)
     = mkDisk (content_txt disk) (Stored index) (Stored cs).
Proof.
  unfold write_artifacts, io_bind, makedirs, write_index, pickle_dump.
  destruct (makedirs_result storage) as [[]|]; cbn; [|discriminate].
  destruct (index_write storage); cbn; [|discriminate].
  destruct (chunks_write storage); cbn; [|discriminate].
  auto.
Qed.

Lemma write_artifacts_completes storage index cs disk :
  makedirs_result storage = Returned tt ->
  index_write storage = Written ->
  chunks_write storage = Written ->
  write_artifacts storage index cs disk
  = (Returned tt, mkDisk (content_txt disk) (Stored index) (Stored cs)).
Proof.
  intros Hd Hi Hc.
  unfold write_artifacts, io_bind, makedirs, write_index, pickle_dump.
  now rewrite Hd, Hi, Hc.
Qed.

(** What the writes can leave in the two artifact files. *)
Lemma write_artifacts_files storage index cs disk :
  (content_index (snd (write_artifacts storage index cs disk))
   = content_index disk
   \/ content_index (snd (write_artifacts storage index cs disk))
      = Unreadable
   \/ content_index (snd (write_artifacts storage index cs disk))
      = Stored index)
  /\ (embedded_chunks_pkl (snd (write_artifacts storage index cs disk))
      = embedded_chunks_pkl disk
      \/ embedded_chunks_pkl (snd (write_artifacts storage index cs disk))
         = Unreadable
      \/ embedded_chunks_pkl (snd (write_artifacts storage index cs disk))
         = Stored cs).
Proof.
  unfold write_artifacts, io_bind, makedirs, write_index, pickle_dump.
  destruct (makedirs_result storage); cbn; auto.
  destruct (index_write storage) as [|e []]; cbn; auto;
    destruct (chunks_write storage) as [|e' []]; cbn; auto.
Qed.

Section Ingestion.

Variable embeddings_create : str -> outcome vector.
Variable storage : Storage.

(** What a completed [embed_chunks] loop has appended. *)
Lemma embed_chunks_returned chunks : forall i acc out,
  embed_chunks embeddings_create i chunks acc = Returned out ->
  exists added,
    out = acc ++ added
    /\ map text added = chunks
    /\ map chunk_id added
       = map (fun j => str_of_nat (j + 1)) (seq i (length chunks))
    /\ Forall (fun c => get_embedding embeddings_create (text c)
                        = Returned (embedding c))
              added.
Proof.
  induction chunks as [|chunk rest IH]; intros i acc out H; simpl in H.
  - inversion H; subst. exists []. rewrite app_nil_r. auto.
  - destruct (get_embedding embeddings_create chunk)
      as [e|] eqn:He; simpl in H; [|discriminate].
    apply IH in H. destruct H as (added & -> & Ht & Hid & Hall).
    exists (mkChunk (str_of_nat (i + 1)) chunk e :: added).
    rewrite <- app_assoc. simpl. repeat split; trivial.
    + now rewrite Ht.
    + now rewrite Hid.
    + constructor; trivial.
Qed.

(** One failing embedding call makes the whole loop raise. *)
Lemma embed_chunks_raised chunks : forall i acc chunk e,
  In chunk chunks -> get_embedding embeddings_create chunk = Raised e ->
  exists e', embed_chunks embeddings_create i chunks acc = Raised e'.
Proof.
  induction chunks as [|c rest IH]; intros i acc chunk e Hin He;
    simpl in *; [contradiction|].
  destruct (get_embedding embeddings_create c)
    as [v|e0] eqn:Hc; simpl.
  - destruct Hin as [->|Hin].
    + congruence.
    + eapply IH; eauto.
  - now exists e0.
Qed.

Lemma store_in_faiss_returned cs index cs' :
  store_in_faiss cs = Returned (index, cs') ->
  cs' = cs
  /\ xb index = map (fun c => float32_vector (embedding c)) cs
  /\ ntotal index = length cs
  /\ Forall (fun c => length (embedding c) = d index) cs.
Proof.
  unfold store_in_faiss. destruct cs as [|c0 rest]; [discriminate|].
  destruct (forallb _ _) eqn:Hall; [|discriminate].
  intros H. inversion H; subst; clear H.
  unfold ntotal, index_create_add; simpl. rewrite length_map.
  repeat split; trivial.
  rewrite forallb_forall in Hall. apply Forall_forall.
  intros c Hc. apply Nat.eqb_eq. now apply Hall.
Qed.

(** The two ways the body can go: it raises with the disk untouched, or
    it embeds every chunk, builds the index and ends with the writes. *)
Lemma process_content_body_cases max_size disk :
  (exists e,
     process_content_body embeddings_create storage max_size disk
     = (Raised e, disk))
  \/ (exists content cs index,
        content_txt disk = Stored content
        /\ store_in_faiss cs = Returned (index, cs)
        /\ ((max_size < length content /\ 0 < max_size
             /\ embed_chunks embeddings_create 0
                  (planned_chunks max_size content) []
                = Returned cs)
            \/ (length content <= max_size
                /\ exists e,
                     get_embedding embeddings_create content = Returned e
                     /\ cs = [mkChunk (lit "full") content e]))
        /\ process_content_body embeddings_create storage max_size disk
           = write_artifacts storage index cs disk).
Proof.
  remember (process_content_body embeddings_create storage max_size disk)
    as run eqn:Hrun.
  unfold process_content_body in Hrun.
  unfold io_bind at 1, read_content in Hrun.
  destruct (content_txt disk) as [| |content] eqn:Hc; cbn [read_file] in Hrun;
    try (left; eexists; exact Hrun).
  destruct (max_size <? length content) eqn:Hlt.
  - apply Nat.ltb_lt in Hlt.
    unfold io_bind at 1, io_lift at 1 in Hrun.
    destruct max_size as [|m]; cbn [py_range obind] in Hrun;
      [left; eexists; exact Hrun|].
    unfold io_bind at 1, io_lift at 1 in Hrun.
    destruct (embed_chunks _ _ _ _) as [cs|] eqn:Hemb;
      [|left; eexists; exact Hrun].
    unfold io_bind at 1, io_lift at 1 in Hrun.
    destruct (store_in_faiss cs) as [[index cs']|] eqn:Hst;
      [|left; eexists; exact Hrun].
    destruct (store_in_faiss_returned _ _ _ Hst) as (-> & _).
    right. exists content, cs, index.
    split; [reflexivity|]. split; [exact Hst|]. split; [|exact Hrun].
    left. repeat split; try lia. unfold planned_chunks.
    now rewrite (proj2 (Nat.ltb_lt _ _) Hlt).
  - apply Nat.ltb_ge in Hlt.
    unfold io_bind at 1, io_lift at 1 in Hrun.
    destruct (get_embedding _ content) as [e|] eqn:He;
      [|left; eexists; exact Hrun].
    unfold io_bind at 1, io_lift at 1 in Hrun.
    destruct (store_in_faiss [mkChunk (lit "full") content e])
      as [[index cs']|] eqn:Hst; [|left; eexists; exact Hrun].
    destruct (store_in_faiss_returned _ _ _ Hst) as (-> & _).
    right. exists content, [mkChunk (lit "full") content e], index.
    split; [reflexivity|]. split; [exact Hst|]. split; [|exact Hrun].
    right. split; trivial. now exists e.
Qed.

(** The two ways a run can go: it reports failure with the disk
    untouched, or it reports what the writes did. *)
Lemma process_content_file_cases max_size disk :
  process_content_file_at embeddings_create storage max_size disk
  = (false, disk)
  \/ (exists content cs index,
        content_txt disk = Stored content
        /\ store_in_faiss cs = Returned (index, cs)
        /\ ((max_size < length content /\ 0 < max_size
             /\ embed_chunks embeddings_create 0
                  (planned_chunks max_size content) []
                = Returned cs)
            \/ (length content <= max_size
                /\ exists e,
                     get_embedding embeddings_create content = Returned e
                     /\ cs = [mkChunk (lit "full") content e]))
        /\ process_content_file_at embeddings_create storage max_size disk
           = report (write_artifacts storage index cs disk)).
Proof.
  unfold process_content_file_at.
  destruct (process_content_body_cases max_size disk)
    as [(e & ->)|(content & cs & index & Hc & Hst & Hcase & ->)];
    [now left|].
  right. exists content, cs, index. repeat split; trivial.
Qed.

(** What a run that reached the writes has computed. *)
Lemma embedded_and_built max_size content cs :
  (max_size < length content /\ 0 < max_size
   /\ embed_chunks embeddings_create 0 (planned_chunks max_size content) []
      = Returned cs)
  \/ (length content <= max_size
      /\ exists e,
           get_embedding embeddings_create content = Returned e
           /\ cs = [mkChunk (lit "full") content e]) ->
  (0 < max_size \/ length content <= max_size)
  /\ map text cs = planned_chunks max_size content
  /\ Forall (fun c => get_embedding embeddings_create (text c)
                      = Returned (embedding c)) cs
  /\ (max_size < length content ->
      map chunk_id cs
      = map (fun j => str_of_nat (j + 1)) (seq 0 (length cs)))
  /\ (length content <= max_size -> map chunk_id cs = [lit "full"]).
Proof.
  intros [(Hlt & Hpos & Hemb)|(Hle & e & He & ->)].
  - apply embed_chunks_returned in Hemb.
    destruct Hemb as (added & -> & Ht & Hid & Hall). cbn [app].
    split; [now left|]. split; [exact Ht|]. split; [exact Hall|].
    split; [|lia]. intros _. rewrite Hid. f_equal. f_equal.
    now rewrite <- Ht, length_map.
  - split; [now right|]. cbn [map text chunk_id].
    unfold planned_chunks. rewrite (proj2 (Nat.ltb_ge _ _) Hle).
    split; trivial. split; [now repeat constructor|].
    split; [lia|trivial].
Qed.

(** A run that reports success has read the corpus, embedded each
    planned chunk, built the index and written both files. *)
Lemma process_content_file_true max_size disk disk' :
  process_content_file_at embeddings_create storage max_size disk
  = (true, disk') ->
  exists content cs index,
    content_txt disk = Stored content
    /\ disk' = mkDisk (content_txt disk) (Stored index) (Stored cs)
    /\ store_in_faiss cs = Returned (index, cs)
    /\ (0 < max_size \/ length content <= max_size)
    /\ map text cs = planned_chunks max_size content
    /\ Forall (fun c => get_embedding embeddings_create (text c)
                        = Returned (embedding c)) cs
    /\ (max_size < length content ->
        map chunk_id cs
        = map (fun j => str_of_nat (j + 1)) (seq 0 (length cs)))
    /\ (length content <= max_size -> map chunk_id cs = [lit "full"]).
Proof.
  intros H.
  destruct (process_content_file_cases max_size disk)
    as [Hfail|(content & cs & index & Hc & Hst & Hcase & Hrun)];
    [congruence|].
  rewrite Hrun in H. unfold report in H.
  destruct (write_artifacts storage index cs disk) as [[u|e] after] eqn:Hw;
    [|discriminate].
  pose proof (write_artifacts_returned storage index cs disk u) as Hdone.
  rewrite Hw in Hdone. destruct (Hdone eq_refl) as (_ & _ & _ & Hafter).
  cbn [snd] in Hafter. inversion H; subst disk'.
  exists content, cs, index. split; [exact Hc|]. split; [exact Hafter|].
  split; [exact Hst|]. now apply embedded_and_built.
Qed.

(** A failing embedding call makes the run report failure before any
    write. *)
Lemma process_content_file_embedding_raised max_size disk content chunk e :
  content_txt disk = Stored content ->
  In chunk (planned_chunks max_size content) ->
  get_embedding embeddings_create chunk = Raised e ->
  process_content_file_at embeddings_create storage max_size disk
  = (false, disk).
Proof.
  intros Hc Hin He.
  destruct (process_content_file_cases max_size disk)
    as [Hfail|(content' & cs & index & Hc' & _ & Hcase & _)]; trivial.
  exfalso. rewrite Hc in Hc'. inversion Hc'; subst content'.
  destruct (embedded_and_built _ _ _ Hcase) as (_ & Ht & Hall & _).
  rewrite <- Ht in Hin. apply in_map_iff in Hin.
  destruct Hin as (c & <- & Hin).
  rewrite Forall_forall in Hall. specialize (Hall c Hin). congruence.
Qed.

End Ingestion.

(** ** Claims on ingestion *)

(** C1. Chunking is a positional partition.  For every corpus text and
    every maximum chunk size, the texts of the chunks persisted by a
    successful ingestion run are the consecutive windows of that size of
    the corpus, in order: window [j] is the slice from [j * max_size] to
    [j * max_size + max_size].  Their concatenation is the corpus, none
    is longer than the maximum size, and a corpus no longer than the
    maximum size gives exactly one chunk, the corpus itself. *)
Theorem chunking_positional_partition :
  forall (embeddings_create : str -> outcome vector) (storage : Storage)
         (max_size : nat) (disk disk' : Disk) (content : str),
    content_txt disk = Stored content ->
    process_content_file_at embeddings_create storage max_size disk
    = (true, disk') ->
    exists cs,
      embedded_chunks_pkl disk' = Stored cs
      /\ map text cs
         = map (fun j => slice content (j * max_size)
                               (j * max_size + max_size))
               (seq 0 (length cs))
      /\ concat (map text cs) = content
      /\ Forall (fun c => length (text c) <= max_size) cs
      /\ (length content <= max_size -> map text cs = [content]).
Proof.
  intros embeddings_create storage max_size disk disk' content Hc Hrun.
  apply process_content_file_true in Hrun.
  destruct Hrun as (content' & cs & index & Hc' & -> & _ & Hm & Ht & _).
  rewrite Hc in Hc'. inversion Hc'; subst content'; clear Hc'.
  destruct (planned_chunks_windows _ content Hm) as (Hwin & Hcat & Hlen & Hone).
  exists cs. rewrite <- Ht in Hwin, Hcat, Hlen, Hone.
  rewrite length_map in Hwin.
  repeat split; trivial.
  clear - Hlen. induction cs as [|c cs IH]; constructor;
    inversion Hlen; subst; auto.
Qed.

Lemma chunking_positional_partition_witness :
  exists cs,
    embedded_chunks_pkl
      (mkDisk (Stored (lit "AAAA BBBB"))
              (Stored (mkIndex 1 [[4%Q]; [4%Q]; [1%Q]]))
              (Stored [mkChunk (lit "1") (lit "AAAA") [4%Q];
                       mkChunk (lit "2") (lit " BBB") [4%Q];
                       mkChunk (lit "3") (lit "B") [1%Q]]))
    = Stored cs
    /\ map text cs
       = map (fun j => slice (lit "AAAA BBBB") (j * 4) (j * 4 + 4))
             (seq 0 (length cs))
    /\ concat (map text cs) = lit "AAAA BBBB"
    /\ Forall (fun c => length (text c) <= 4) cs
    /\ (length (lit "AAAA BBBB") <= 4 -> map text cs = [lit "AAAA BBBB"]).
Proof.
  apply (chunking_positional_partition
           Fixture.count_embedder Fixture.sound 4
           (Fixture.corpus "AAAA BBBB") _ (lit "AAAA BBBB")); reflexivity.
Defined.

(** C4, as the code has it.  A run of the ingestion in which the corpus
    file cannot be read, or in which the embedding call of any chunk
    fails, reports failure and has written neither artifact file: the
    disk, and with it any prior artifact pair, is as it was.  An artifact
    file differs after a run only if the run read the corpus, embedded
    every planned chunk and built the index from them, and it then holds
    that index or those chunks, or what a write that failed has left of
    the file.  A run that reports success has written both.  The corpus
    file is never changed.  (An empty corpus is not rejected by the run
    itself: it is sent to the embedder as one empty chunk.) *)
Theorem ingestion_writes_after_embedding :
  forall (embeddings_create : str -> outcome vector) (storage : Storage)
         (max_size : nat) (disk disk' : Disk) (ok : bool),
    process_content_file_at embeddings_create storage max_size disk
    = (ok, disk') ->
    ((forall content, content_txt disk <> Stored content) ->
     ok = false /\ disk' = disk)
    /\ (forall content chunk e,
          content_txt disk = Stored content ->
          In chunk (planned_chunks max_size content) ->
          get_embedding embeddings_create chunk = Raised e ->
          ok = false /\ disk' = disk)
    /\ (content_index disk' <> content_index disk
        \/ embedded_chunks_pkl disk' <> embedded_chunks_pkl disk ->
        exists content cs index,
          content_txt disk = Stored content
          /\ map text cs = planned_chunks max_size content
          /\ Forall (fun c => get_embedding embeddings_create (text c)
                              = Returned (embedding c)) cs
          /\ store_in_faiss cs = Returned (index, cs)
          /\ (content_index disk' = content_index disk
              \/ content_index disk' = Unreadable
              \/ content_index disk' = Stored index)
          /\ (embedded_chunks_pkl disk' = embedded_chunks_pkl disk
              \/ embedded_chunks_pkl disk' = Unreadable
              \/ embedded_chunks_pkl disk' = Stored cs))
    /\ (ok = true ->
        exists cs index,
          Forall (fun c => get_embedding embeddings_create (text c)
                           = Returned (embedding c)) cs
          /\ store_in_faiss cs = Returned (index, cs)
          /\ disk' = mkDisk (content_txt disk) (Stored index) (Stored cs))
    /\ content_txt disk' = content_txt disk.
Proof.
  intros embeddings_create storage max_size disk disk' ok Hrun.
  split; [|split; [|split; [|split]]].
  - intros Hnone.
    destruct (process_content_file_cases embeddings_create storage
                max_size disk)
      as [Hfail|(content & _ & _ & Hc & _)].
    + rewrite Hrun in Hfail. now inversion Hfail.
    + now apply Hnone in Hc.
  - intros content chunk e Hc Hin He.
    pose proof (process_content_file_embedding_raised
                  embeddings_create storage max_size disk _ _ _ Hc Hin He)
      as H.
    rewrite Hrun in H. now inversion H.
  - intros Hdiff.
    destruct (process_content_file_cases embeddings_create storage
                max_size disk)
      as [Hfail|(content & cs & index & Hc & Hst & Hcase & Hrep)].
    + rewrite Hrun in Hfail. inversion Hfail; subst.
      destruct Hdiff as [Hdiff|Hdiff]; now contradiction Hdiff.
    + destruct (embedded_and_built embeddings_create _ _ _ Hcase)
        as (_ & Ht & Hall & _).
      exists content, cs, index.
      split; [exact Hc|]. split; [exact Ht|]. split; [exact Hall|].
      split; [exact Hst|].
      assert (Hafter : disk' = snd (write_artifacts storage index cs disk)).
      { rewrite Hrun in Hrep. unfold report in Hrep.
        destruct (write_artifacts storage index cs disk) as [[u|e] after];
          now inversion Hrep. }
      rewrite Hafter. apply write_artifacts_files.
  - intros ->. apply process_content_file_true in Hrun.
    destruct Hrun as (content & cs & index & _ & -> & Hst & _ & _ & Hall & _).
    now exists cs, index.
  - destruct (process_content_file_cases embeddings_create storage
                max_size disk)
      as [Hfail|(content & cs & index & _ & _ & _ & Hrep)].
    + rewrite Hrun in Hfail. now inversion Hfail.
    + rewrite Hrun in Hrep. unfold report in Hrep.
      pose proof (write_artifacts_corpus storage index cs disk) as Hkeep.
      destruct (write_artifacts storage index cs disk) as [[u|e] after];
        now inversion Hrep.
Qed.

Lemma ingestion_writes_after_embedding_witness :
  process_content_file_at Fixture.failing_embedder Fixture.sound 5
                          Fixture.reingest
  = (false, Fixture.reingest).
Proof.
  destruct (process_content_file_at Fixture.failing_embedder Fixture.sound 5
              Fixture.reingest) as [ok disk'] eqn:Hrun.
  destruct (ingestion_writes_after_embedding
              Fixture.failing_embedder Fixture.sound 5 Fixture.reingest
              disk' ok Hrun)
    as (_ & Hraise & _).
  destruct (Hraise (lit "hello world") (lit "hello")
                   (ProviderError (lit "rate limit exceeded")))
    as (-> & ->); [reflexivity | vm_compute; auto | reflexivity |].
  reflexivity.
Defined.

(** C4, as the specification words it, fails: with an embedder that
    accepts every text, a run on an empty corpus reports success and
    writes both artifact files. *)
Lemma empty_corpus_is_ingested :
  process_content_file Fixture.count_embedder Fixture.sound
                       (Fixture.corpus "")
  = (true,
     mkDisk (Stored []) (Stored (mkIndex 1 [[0%Q]]))
            (Stored [mkChunk (lit "full") [] [0%Q]])).
Proof. vm_compute. reflexivity. Qed.

(** C7, as the code has it.  In a successful run on a corpus longer than
    the maximum chunk size, the chunk stored at position [i], counting
    from 0, has the id [str(i + 1)]; in a successful run on a corpus that
    fits in one chunk, the single chunk stored has the id [full]. *)
Theorem chunk_ids_sequential_or_full :
  forall (embeddings_create : str -> outcome vector) (storage : Storage)
         (max_size : nat) (disk disk' : Disk) (content : str)
         (cs : list Chunk),
    content_txt disk = Stored content ->
    process_content_file_at embeddings_create storage max_size disk
    = (true, disk') ->
    embedded_chunks_pkl disk' = Stored cs ->
    (max_size < length content ->
     2 <= length cs
     /\ forall i c, nth_error cs i = Some c -> chunk_id c = str_of_nat (i + 1))
    /\ (length content <= max_size ->
        exists c, cs = [c] /\ chunk_id c = lit "full").
Proof.
  intros embeddings_create storage max_size disk disk' content cs Hc Hrun
         Hpkl.
  apply process_content_file_true in Hrun.
  destruct Hrun
    as (content' & cs' & index & Hc' & -> & _ & Hm & Ht & _ & Hseq & Hfull).
  rewrite Hc in Hc'. inversion Hc'; subst content'; clear Hc'.
  cbn [embedded_chunks_pkl] in Hpkl. inversion Hpkl; subst cs'; clear Hpkl.
  split.
  - intros Hlt. specialize (Hseq Hlt). split.
    + destruct (planned_chunks_windows _ content Hm) as (_ & Hcat & Hlen & _).
      rewrite <- Ht in Hcat, Hlen.
      destruct cs as [|c1 [|c2 rest]]; cbn [length]; try lia.
      * cbn in Hcat. subst content. cbn in Hlt. lia.
      * cbn in Hcat. rewrite app_nil_r in Hcat. subst content.
        inversion Hlen; subst. lia.
    + intros i c Hi.
      assert (Hid : nth_error (map chunk_id cs) i = Some (chunk_id c))
        by (rewrite nth_error_map, Hi; reflexivity).
      rewrite Hseq, nth_error_map, nth_error_seq in Hid.
      destruct (i <? length cs); cbn in Hid; now inversion Hid.
  - intros Hle. specialize (Hfull Hle).
    destruct cs as [|c [|c' rest]]; try discriminate.
    exists c. split; trivial. now inversion Hfull.
Qed.

Lemma chunk_ids_sequential_or_full_witness :
  chunk_id (mkChunk (lit "2") (lit " worl") [5%Q]) = str_of_nat (1 + 1).
Proof.
  refine (proj2 (proj1 (chunk_ids_sequential_or_full
                          Fixture.count_embedder Fixture.sound 5
                          (Fixture.corpus "hello world") _
                          (lit "hello world") _ eq_refl eq_refl eq_refl) _)
                1 _ eq_refl).
  vm_compute. lia.
Defined.

(** C7, as the specification words it, fails: the run on a corpus that
    fits in one chunk stores the id [full] with it, not [1]. *)
Lemma single_chunk_id_is_full :
  process_content_file Fixture.count_embedder Fixture.sound
                       (Fixture.corpus "abc")
  = (true,
     mkDisk (Stored (lit "abc")) (Stored (mkIndex 1 [[3%Q]]))
            (Stored [mkChunk (lit "full") (lit "abc") [3%Q]]))
  /\ lit "full" <> str_of_nat 1.
Proof. split; [vm_compute; reflexivity | discriminate]. Qed.

(** ** Distances and similarities *)

Lemma square_nonneg (q : Q) : (0 <= q * q)%Q.
Proof.
  destruct q as [n den]. unfold Qle, Qmult. cbn [Qnum Qden].
  rewrite Z.mul_0_l, Z.mul_1_r. apply Z.square_nonneg.
Qed.

Lemma sum_of_squares_nonneg (x y : vector) : (0 <= fvec_L2sqr x y)%Q.
Proof.
  unfold fvec_L2sqr.
  induction (combine x y) as [|p ps IH]; cbn [map fold_right].
  - apply Qle_refl.
  - pose proof (square_nonneg (fst p - snd p)) as Hsq. lra.
Qed.

(** *** Rounding *)

Local Open Scope Q_scope.

Lemma pow2_pos k : 0 < pow2 k.
Proof. unfold pow2. apply Qpower_0_lt. reflexivity. Qed.

Lemma pow2_add a b : pow2 (a + b) == pow2 a * pow2 b.
Proof. unfold pow2. apply Qpower_plus. discriminate. Qed.

Lemma pow2_le a b : (a <= b)%Z -> pow2 a <= pow2 b.
Proof. intros H. unfold pow2. apply Qpower_le_compat_l; [exact H | discriminate]. Qed.

Lemma pow2_lt a b : (a < b)%Z -> pow2 a < pow2 b.
Proof. intros H. unfold pow2. apply Qpower_lt_compat_l; [exact H | reflexivity]. Qed.

Lemma pow2_lt_inv a b : pow2 a < pow2 b -> (a < b)%Z.
Proof. intros H. apply (Qpower_lt_compat_l_inv 2); [exact H | reflexivity]. Qed.

Lemma pow2_Z k : (0 <= k)%Z -> pow2 k == inject_Z (2 ^ k).
Proof. intros H. unfold pow2. symmetry. apply (Zpower_Qpower 2 k H). Qed.

Lemma pow2_div a b : pow2 a / pow2 b == pow2 (a - b).
Proof.
  assert (H : pow2 a == pow2 (a - b) * pow2 b)
    by (rewrite <- pow2_add; now replace (a - b + b)%Z with a by lia).
  rewrite H. field. pose proof (pow2_pos b). lra.
Qed.

Lemma ilog2_spec x : 0 < x -> pow2 (ilog2 x) <= x < pow2 (ilog2 x + 1).
Proof.
  intros Hx. destruct x as [a b]. unfold ilog2. cbn [Qnum Qden].
  assert (Ha : (0 < a)%Z) by (unfold Qlt in Hx; cbn in Hx; lia).
  set (la := Z.log2 a). set (lb := Z.log2 (Z.pos b)).
  destruct (Z.log2_spec a Ha) as [Ha1 Ha2]. fold la in Ha1, Ha2.
  destruct (Z.log2_spec (Z.pos b) (Pos2Z.is_pos b)) as [Hb1 Hb2].
  fold lb in Hb1, Hb2.
  assert (Hla : (0 <= la)%Z) by apply Z.log2_nonneg.
  assert (Hlb : (0 <= lb)%Z) by apply Z.log2_nonneg.
  assert (Hq : a # b == inject_Z a / inject_Z (Z.pos b))
    by (rewrite Qmake_Qdiv; reflexivity).
  assert (Hbpos : 0 < inject_Z (Z.pos b)) by (unfold Qlt; cbn; lia).
  assert (Hlow : pow2 (la - lb - 1) < a # b).
  { rewrite Hq. apply Qlt_shift_div_l; trivial.
    apply Qlt_le_trans with (pow2 (la - lb - 1) * pow2 (lb + 1)).
    - apply Qmult_lt_l; [apply pow2_pos|].
      rewrite pow2_Z by lia. rewrite <- Zlt_Qlt.
      now rewrite Z.add_1_r.
    - rewrite <- pow2_add. replace (la - lb - 1 + (lb + 1))%Z with la by lia.
      rewrite pow2_Z by lia. now rewrite <- Zle_Qle. }
  assert (Hhigh : a # b < pow2 (la - lb + 1)).
  { rewrite Hq. apply Qlt_shift_div_r; trivial.
    apply Qlt_le_trans with (pow2 (la + 1)).
    - rewrite pow2_Z by lia. rewrite <- Zlt_Qlt. now rewrite Z.add_1_r.
    - assert (H : pow2 (la + 1) == pow2 (la - lb + 1) * pow2 lb)
        by (rewrite <- pow2_add; now replace (la - lb + 1 + lb)%Z
                                         with (la + 1)%Z by lia).
      rewrite H. apply Qmult_le_l; [apply pow2_pos|].
      rewrite pow2_Z by lia. now rewrite <- Zle_Qle. }
  destruct (Qle_bool (pow2 (la - lb)) (a # b)) eqn:Hcmp.
  - apply Qle_bool_iff in Hcmp. split; trivial.
  - assert (Hlt : a # b < pow2 (la - lb)).
    { apply Qnot_le_lt. intros H. apply Qle_bool_iff in H. congruence. }
    split.
    + now apply Qlt_le_weak.
    + now replace (la - lb - 1 + 1)%Z with (la - lb)%Z by lia.
Qed.

Lemma ilog2_mono x y : 0 < x -> x <= y -> (ilog2 x <= ilog2 y)%Z.
Proof.
  intros Hx Hxy.
  destruct (ilog2_spec x Hx) as [Hx1 _].
  destruct (ilog2_spec y (Qlt_le_trans _ _ _ Hx Hxy)) as [_ Hy2].
  assert (H : pow2 (ilog2 x) < pow2 (ilog2 y + 1)).
  { eapply Qle_lt_trans; [exact Hx1|]. eapply Qle_lt_trans; eauto. }
  apply pow2_lt_inv in H. lia.
Qed.

Lemma ilog2_pow2 k : ilog2 (pow2 k) = k.
Proof.
  destruct (ilog2_spec (pow2 k) (pow2_pos k)) as [H1 H2].
  assert (Ha : (ilog2 (pow2 k) <= k)%Z).
  { destruct (Z_le_gt_dec (ilog2 (pow2 k)) k); trivial.
    exfalso. assert (pow2 k < pow2 (ilog2 (pow2 k))) by (apply pow2_lt; lia).
    lra. }
  apply pow2_lt_inv in H2. lia.
Qed.

Lemma round_half_even_bounds q :
  (Qfloor q <= round_half_even q <= Qfloor q + 1)%Z.
Proof.
  unfold round_half_even.
  destruct (q - inject_Z (Qfloor q) ?= 1 # 2); try lia.
  destruct (Z.even (Qfloor q)); lia.
Qed.

Lemma round_half_even_Z z : round_half_even (inject_Z z) = z.
Proof.
  unfold round_half_even. rewrite Qfloor_Z.
  assert (H : inject_Z z - inject_Z z == 0) by ring.
  now rewrite H.
Qed.

Lemma round_half_even_mono q1 q2 :
  q1 <= q2 -> (round_half_even q1 <= round_half_even q2)%Z.
Proof.
  intros Hle. pose proof (Qfloor_resp_le _ _ Hle) as Hf.
  destruct (Z.eq_dec (Qfloor q1) (Qfloor q2)) as [Heq|Hne].
  - unfold round_half_even. rewrite Heq.
    destruct (q1 - inject_Z (Qfloor q2) ?= 1 # 2) eqn:H1;
      destruct (q2 - inject_Z (Qfloor q2) ?= 1 # 2) eqn:H2;
      try destruct (Z.even (Qfloor q2)); try lia; exfalso;
      repeat match goal with
             | H : (_ ?= _) = Eq |- _ => apply Qeq_alt in H
             | H : (_ ?= _) = Lt |- _ => apply Qlt_alt in H
             | H : (_ ?= _) = Gt |- _ => apply Qgt_alt in H
             end; lra.
  - pose proof (round_half_even_bounds q1). pose proof (round_half_even_bounds q2).
    lia.
Qed.

Lemma round_half_even_comp q1 q2 :
  q1 == q2 -> round_half_even q1 = round_half_even q2.
Proof.
  intros Hq. apply Z.le_antisymm; apply round_half_even_mono;
    rewrite Hq; apply Qle_refl.
Qed.

Lemma precision_pos fmt : (1 <= precision fmt)%Z.
Proof. destruct fmt; cbn; lia. Qed.

Lemma emin_neg fmt : (emin fmt <= 0)%Z.
Proof. destruct fmt; cbn; lia. Qed.

Section Rounding.

Variable fmt : float_format.

Lemma round_magnitude_nonneg x : 0 < x -> 0 <= round_magnitude fmt x.
Proof.
  intros Hx. unfold round_magnitude.
  set (e := Z.max _ _).
  apply Qmult_le_0_compat; [|apply Qlt_le_weak, pow2_pos].
  assert (H : (0 <= round_half_even (x / pow2 e))%Z).
  { rewrite <- (round_half_even_Z 0). apply round_half_even_mono.
    apply Qle_shift_div_l; [apply pow2_pos|].
    change (inject_Z 0) with 0. rewrite Qmult_0_l. lra. }
  change 0 with (inject_Z 0). now rewrite <- Zle_Qle.
Qed.

Lemma round_magnitude_mono x y :
  0 < x -> x <= y -> round_magnitude fmt x <= round_magnitude fmt y.
Proof.
  intros Hx Hxy. assert (Hy : 0 < y) by lra.
  pose proof (ilog2_mono x y Hx Hxy) as Hk.
  destruct (ilog2_spec x Hx) as [_ Hx2].
  destruct (ilog2_spec y Hy) as [Hy1 _].
  unfold round_magnitude.
  set (ex := Z.max (ilog2 x - (precision fmt - 1)) (emin fmt)).
  set (ey := Z.max (ilog2 y - (precision fmt - 1)) (emin fmt)).
  assert (Hexy : (ex <= ey)%Z) by (unfold ex, ey; lia).
  destruct (Z.eq_dec ex ey) as [Heq|Hne].
  - rewrite <- Heq. apply Qmult_le_r; [apply pow2_pos|].
    rewrite <- Zle_Qle. apply round_half_even_mono.
    apply Qmult_le_r; [apply Qinv_lt_0_compat, pow2_pos | exact Hxy].
  - assert (Hlt : (ex < ey)%Z) by lia.
    assert (Hey : ey = (ilog2 y - (precision fmt - 1))%Z)
      by (unfold ex, ey in *; lia).
    apply Qle_trans with (pow2 (ex + precision fmt)).
    + (* x rounds to at most the next power of two *)
      assert (Hxb : x < pow2 (ex + precision fmt)).
      { eapply Qlt_le_trans; [exact Hx2|]. apply pow2_le. unfold ex. lia. }
      pose proof (precision_pos fmt) as Hp.
      assert (Hsplit : pow2 (ex + precision fmt)
                       == pow2 (precision fmt) * pow2 ex)
        by (rewrite <- pow2_add; now rewrite Z.add_comm).
      rewrite Hsplit.
      apply Qmult_le_r; [apply pow2_pos|].
      rewrite (pow2_Z (precision fmt)) by lia. rewrite <- Zle_Qle.
      rewrite <- (round_half_even_Z (2 ^ precision fmt)).
      apply round_half_even_mono.
      rewrite <- (pow2_Z (precision fmt)) by lia.
      apply Qle_shift_div_r; [apply pow2_pos|].
      rewrite <- pow2_add, Z.add_comm. now apply Qlt_le_weak.
    + pose proof (precision_pos fmt) as Hp.
      apply Qle_trans with (pow2 (precision fmt - 1) * pow2 ey).
      * rewrite <- pow2_add. apply pow2_le. lia.
      * apply Qmult_le_r; [apply pow2_pos|].
        rewrite (pow2_Z (precision fmt - 1)) by lia. rewrite <- Zle_Qle.
        rewrite <- (round_half_even_Z (2 ^ (precision fmt - 1))).
        apply round_half_even_mono.
        rewrite <- (pow2_Z (precision fmt - 1)) by lia.
        apply Qle_shift_div_l; [apply pow2_pos|].
        rewrite <- pow2_add.
        replace (precision fmt - 1 + ey)%Z with (ilog2 y) by lia.
        exact Hy1.
Qed.

Lemma round_float_eq x :
  round_float fmt x
  == match x ?= 0 with
     | Eq => 0
     | Gt => round_magnitude fmt x
     | Lt => - round_magnitude fmt (- x)
     end.
Proof. unfold round_float. apply Qred_correct. Qed.

Lemma round_float_nonneg x : 0 <= x -> 0 <= round_float fmt x.
Proof.
  intros Hx. rewrite round_float_eq.
  destruct (x ?= 0) eqn:Hc.
  - apply Qle_refl.
  - apply Qlt_alt in Hc. lra.
  - apply Qgt_alt in Hc. now apply round_magnitude_nonneg.
Qed.

Lemma round_float_mono x y :
  0 <= x -> x <= y -> round_float fmt x <= round_float fmt y.
Proof.
  intros Hx Hxy. rewrite (round_float_eq x).
  destruct (x ?= 0) eqn:Hc.
  - apply round_float_nonneg. lra.
  - apply Qlt_alt in Hc. lra.
  - apply Qgt_alt in Hc. rewrite (round_float_eq y).
    destruct (y ?= 0) eqn:Hd.
    + apply Qeq_alt in Hd. lra.
    + apply Qlt_alt in Hd. lra.
    + now apply round_magnitude_mono.
Qed.

Lemma round_float_pow2 k : (emin fmt <= k)%Z -> round_float fmt (pow2 k) == pow2 k.
Proof.
  intros Hk. rewrite round_float_eq.
  pose proof (pow2_pos k) as Hpos.
  destruct (pow2 k ?= 0) eqn:Hc.
  - apply Qeq_alt in Hc. lra.
  - apply Qlt_alt in Hc. lra.
  - unfold round_magnitude. rewrite ilog2_pow2.
    pose proof (precision_pos fmt) as Hp.
    set (e := Z.max (k - (precision fmt - 1)) (emin fmt)).
    assert (He : (e <= k)%Z) by (unfold e; lia).
    assert (Hq : pow2 k / pow2 e == inject_Z (2 ^ (k - e)))
      by (rewrite pow2_div; apply pow2_Z; lia).
    rewrite (round_half_even_comp _ _ Hq), round_half_even_Z.
    rewrite <- (pow2_Z (k - e)) by lia.
    rewrite <- pow2_add. now replace (k - e + e)%Z with k by lia.
Qed.

Lemma round_float_one : round_float fmt 1 == 1.
Proof. apply (round_float_pow2 0). apply emin_neg. Qed.

Lemma round_float_comp x y :
  0 <= x -> x == y -> round_float fmt x = round_float fmt y.
Proof.
  intros Hx Hxy.
  assert (H : round_float fmt x == round_float fmt y)
    by (apply Qle_antisym; apply round_float_mono; lra).
  apply Qred_complete in H. unfold round_float in *.
  rewrite <- (Qred_complete _ _ (Qred_correct _)), H.
  apply Qred_complete, Qred_correct.
Qed.

End Rounding.

(** *** The similarity of l.190 *)

Section Similarity.

Variable arith : float_format.

Lemma fadd_one_ge (distance : Q) : 0 <= distance -> 1 <= fadd arith 1 distance.
Proof.
  intros H. unfold fadd. rewrite <- (round_float_one arith) at 1.
  apply round_float_mono; lra.
Qed.

Lemma fadd_one_mono (near far : Q) :
  0 <= near -> near <= far -> fadd arith 1 near <= fadd arith 1 far.
Proof. intros Hn Hle. unfold fadd. apply round_float_mono; lra. Qed.

Lemma inverse_bounds (sum : Q) : 1 <= sum -> 0 < 1 / sum <= 1.
Proof.
  intros H. split.
  - apply Qlt_shift_div_l; lra.
  - apply Qle_shift_div_r; lra.
Qed.

Lemma inverse_antitone (low high : Q) :
  1 <= low -> low <= high -> 1 / high <= 1 / low.
Proof.
  intros Hl Hle. apply Qle_shift_div_l; [lra|].
  assert (H : 1 / high * low == low / high) by (field; lra).
  rewrite H. apply Qle_shift_div_r; lra.
Qed.

Lemma similarity_nonneg (distance : Q) :
  0 <= distance -> 0 <= similarity_of_distance arith distance.
Proof.
  intros H. unfold similarity_of_distance, fdiv.
  apply round_float_nonneg.
  pose proof (inverse_bounds _ (fadd_one_ge _ H)). lra.
Qed.

Lemma similarity_at_most_one (distance : Q) :
  0 <= distance -> similarity_of_distance arith distance <= 1.
Proof.
  intros H. unfold similarity_of_distance, fdiv.
  pose proof (inverse_bounds _ (fadd_one_ge _ H)).
  apply Qle_trans with (round_float arith 1).
  - apply round_float_mono; lra.
  - rewrite round_float_one. apply Qle_refl.
Qed.

Lemma similarity_decreasing (near far : Q) :
  0 <= near -> near <= far ->
  similarity_of_distance arith far <= similarity_of_distance arith near.
Proof.
  intros Hnear Hle. unfold similarity_of_distance, fdiv.
  assert (Hfar : 0 <= far) by lra.
  pose proof (fadd_one_ge _ Hnear) as Hn.
  pose proof (fadd_one_ge _ Hfar) as Hf.
  pose proof (fadd_one_mono _ _ Hnear Hle) as Hm.
  pose proof (inverse_bounds _ Hf) as Hb.
  apply round_float_mono; [lra|].
  now apply inverse_antitone.
Qed.

Lemma similarity_comp (d1 d2 : Q) :
  0 <= d1 -> d1 == d2 ->
  similarity_of_distance arith d1 = similarity_of_distance arith d2.
Proof.
  intros H Heq. unfold similarity_of_distance, fdiv, fadd.
  assert (Hs : round_float arith (1 + d1) = round_float arith (1 + d2))
    by (apply round_float_comp; lra).
  now rewrite Hs.
Qed.

Lemma similarity_at_zero : similarity_of_distance arith 0 = 1.
Proof. destruct arith; vm_compute; reflexivity. Qed.

Lemma similarity_of_exact_match (distance : Q) :
  distance == 0 -> similarity_of_distance arith distance = 1.
Proof.
  intros H. rewrite <- similarity_at_zero. symmetry.
  apply similarity_comp; [apply Qle_refl | now symmetry].
Qed.

(** Up to the largest float32, the similarity does not round to 0. *)
Lemma similarity_positive (distance : Q) :
  0 <= distance -> distance <= FLT_MAX ->
  0 < similarity_of_distance arith distance.
Proof.
  intros H Hmax.
  assert (Hbig : 1 + FLT_MAX <= pow2 128) by (vm_compute; discriminate).
  assert (Hemin : (emin arith <= -128)%Z) by (destruct arith; cbn; lia).
  assert (Hsum : fadd arith 1 distance <= pow2 128).
  { unfold fadd. apply Qle_trans with (round_float arith (pow2 128)).
    - apply round_float_mono; lra.
    - rewrite round_float_pow2 by lia. apply Qle_refl. }
  pose proof (fadd_one_ge _ H) as Hone.
  pose proof (pow2_pos (-128)) as Hp.
  apply Qlt_le_trans with (round_float arith (pow2 (-128)));
    [rewrite round_float_pow2 by lia; exact Hp|].
  unfold similarity_of_distance, fdiv.
  apply round_float_mono; [lra|].
  apply Qle_shift_div_l; [lra|].
  apply Qle_trans with (pow2 (-128) * pow2 128).
  - apply Qmult_le_l; trivial.
  - rewrite <- pow2_add. cbn. vm_compute. discriminate.
Qed.

End Similarity.

Local Close Scope Q_scope.

(** ** The flat index returns the nearest vectors, nearest first *)

Lemma insert_hit_length h hs : length (insert_hit h hs) = S (length hs).
Proof.
  induction hs as [|h' hs IH]; cbn [insert_hit]; trivial.
  destruct (Qle_bool (fst h) (fst h')); cbn [length]; congruence.
Qed.

Lemma insert_hit_In h hs x : In x (insert_hit h hs) <-> x = h \/ In x hs.
Proof.
  induction hs as [|h' hs IH]; cbn [insert_hit].
  - cbn. intuition congruence.
  - destruct (Qle_bool (fst h) (fst h')); cbn [In] in *;
      [|rewrite IH]; intuition congruence.
Qed.

Lemma insert_hit_sorted h hs :
  StronglySorted hit_le hs -> StronglySorted hit_le (insert_hit h hs).
Proof.
  induction 1 as [|h' hs Hs IH Hall]; cbn [insert_hit].
  - repeat constructor.
  - destruct (Qle_bool (fst h) (fst h')) eqn:Hcmp.
    + apply Qle_bool_iff in Hcmp.
      constructor; [now constructor|].
      constructor; [exact Hcmp|].
      eapply Forall_impl; [|exact Hall].
      intros a Ha. unfold hit_le in *. eapply Qle_trans; eauto.
    + constructor; [exact IH|].
      apply Forall_forall. intros a Ha.
      apply insert_hit_In in Ha. destruct Ha as [->|Ha].
      * unfold hit_le. apply Qlt_le_weak, Qnot_le_lt.
        intros Hle. apply Qle_bool_iff in Hle. congruence.
      * rewrite Forall_forall in Hall. now apply Hall.
Qed.

Lemma sort_hits_length hs : length (sort_hits hs) = length hs.
Proof.
  induction hs as [|h hs IH]; cbn [sort_hits fold_right length]; trivial.
  rewrite insert_hit_length. f_equal. exact IH.
Qed.

Lemma sort_hits_In hs x : In x (sort_hits hs) <-> In x hs.
Proof.
  induction hs as [|h hs IH]; cbn [sort_hits fold_right In]; [tauto|].
  rewrite insert_hit_In. fold (sort_hits hs). rewrite IH.
  intuition congruence.
Qed.

Lemma sort_hits_sorted hs : StronglySorted hit_le (sort_hits hs).
Proof.
  induction hs as [|h hs IH]; cbn [sort_hits fold_right].
  - constructor.
  - now apply insert_hit_sorted.
Qed.

Lemma firstn_In {A} (n : nat) (l : list A) (x : A) :
  In x (firstn n l) -> In x l.
Proof.
  revert l. induction n as [|n IH]; intros [|a l]; cbn; try tauto.
  intros [->|H]; auto.
Qed.

Lemma firstn_strongly_sorted {A} (R : A -> A -> Prop) (n : nat) (l : list A) :
  StronglySorted R l -> StronglySorted R (firstn n l).
Proof.
  intros Hs. revert n.
  induction Hs as [|a l Hs IH Hall]; intros [|n]; cbn [firstn];
    try constructor; auto.
  apply Forall_forall. intros x Hx. apply firstn_In in Hx.
  rewrite Forall_forall in Hall. auto.
Qed.

(** Every hit names a stored position and carries a distance that is not
    negative. *)
Lemma all_hits_In index x h :
  In h (all_hits index x) ->
  (0 <= fst h)%Q /\ (0 <= snd h < Z.of_nat (ntotal index))%Z.
Proof.
  unfold all_hits. destruct h as [dist label]. intros Hin. cbn [fst snd].
  split.
  - apply in_combine_l in Hin. apply in_map_iff in Hin.
    destruct Hin as (v & <- & _). apply sum_of_squares_nonneg.
  - apply in_combine_r in Hin. apply in_map_iff in Hin.
    destruct Hin as (j & <- & Hj). apply in_seq in Hj. lia.
Qed.

Lemma all_hits_length index x : length (all_hits index x) = ntotal index.
Proof.
  unfold all_hits, ntotal.
  rewrite length_combine, !length_map, length_seq. apply Nat.min_id.
Qed.

Lemma nearest_length index x k :
  length (nearest index x k) = Nat.min k (ntotal index).
Proof.
  unfold nearest.
  now rewrite length_firstn, sort_hits_length, all_hits_length.
Qed.

Lemma nearest_In index x k h :
  In h (nearest index x k) ->
  (0 <= fst h)%Q /\ (0 <= snd h < Z.of_nat (ntotal index))%Z.
Proof.
  unfold nearest. intros Hin. apply firstn_In in Hin.
  rewrite sort_hits_In in Hin. now apply all_hits_In in Hin.
Qed.

Lemma nearest_sorted index x k : StronglySorted hit_le (nearest index x k).
Proof. apply firstn_strongly_sorted, sort_hits_sorted. Qed.

Lemma distances_sorted (hs : list (Q * Z)) :
  StronglySorted hit_le hs -> StronglySorted Qle (map fst hs).
Proof.
  induction 1 as [|h hs Hs IH Hall]; cbn [map]; constructor; trivial.
  apply Forall_map. exact Hall.
Qed.

Lemma similarities_sorted (arith : float_format) (hs : list (Q * Z)) :
  StronglySorted hit_le hs ->
  Forall (fun h => (0 <= fst h)%Q) hs ->
  StronglySorted (fun a b => (b <= a)%Q)
                 (map (fun h => similarity_of_distance arith (fst h)) hs).
Proof.
  induction 1 as [|h hs Hs IH Hall]; intros Hpos; cbn [map];
    constructor; inversion Hpos; subst; auto.
  apply Forall_map. eapply Forall_impl; [|exact Hall].
  intros a Ha. now apply similarity_decreasing.
Qed.

(** The two rows returned by a search: the nearest hits, then padding. *)
Lemma index_search_returned index x k distances indices :
  index_search index x k = Returned (distances, indices) ->
  length x = d index /\ 0 < k
  /\ distances
     = map fst (nearest index x k)
       ++ repeat FLT_MAX (k - length (nearest index x k))
  /\ indices
     = map snd (nearest index x k)
       ++ repeat (-1)%Z (k - length (nearest index x k))
  /\ length distances = k /\ length indices = k.
Proof.
  unfold index_search.
  destruct (length x =? d index) eqn:Hd; cbn [negb]; [|discriminate].
  destruct (k =? 0) eqn:Hk; [discriminate|].
  apply Nat.eqb_eq in Hd. apply Nat.eqb_neq in Hk.
  intros H. inversion H; subst; clear H.
  pose proof (nearest_length index x k) as Hlen.
  rewrite !length_app, !length_map, !repeat_length.
  repeat split; trivial; lia.
Qed.

Lemma index_search_succeeds index x k :
  length x = d index -> 0 < k ->
  exists distances indices,
    index_search index x k = Returned (distances, indices).
Proof.
  intros Hd Hk. unfold index_search.
  rewrite (proj2 (Nat.eqb_eq _ _) Hd). cbn [negb].
  rewrite (proj2 (Nat.eqb_neq _ _)) by lia.
  eauto.
Qed.

(** ** Loading and searching *)

Lemma load_faiss_index_cases (disk : Disk) :
  (exists index chunks,
      content_index disk = Stored index
      /\ embedded_chunks_pkl disk = Stored chunks
      /\ load_faiss_index disk = (Some index, Some chunks))
  \/ (((forall index, content_index disk <> Stored index)
       \/ (forall chunks, embedded_chunks_pkl disk <> Stored chunks))
      /\ load_faiss_index disk = (None, None)).
Proof.
  unfold load_faiss_index.
  destruct (content_index disk) as [| |index];
    try (right; split; [left; discriminate | reflexivity]).
  destruct (embedded_chunks_pkl disk) as [| |chunks];
    try (right; split; [right; discriminate | reflexivity]).
  left. now exists index, chunks.
Qed.

Lemma getitem_valid (chunks : list Chunk) (idx : Z) :
  valid_position chunks idx = true ->
  exists chunk,
    nth_error chunks (Z.to_nat idx) = Some chunk
    /\ getitem chunks idx = Returned chunk.
Proof.
  unfold valid_position, getitem. intros Hv.
  apply andb_true_iff in Hv. destruct Hv as [Hlt Hge].
  apply Z.ltb_lt in Hlt. apply Z.geb_le in Hge.
  rewrite (proj2 (Z.ltb_ge _ _) Hge).
  rewrite (proj2 (Z.leb_le _ _) Hge), (proj2 (Z.ltb_lt _ _) Hlt).
  cbn [andb].
  destruct (nth_error chunks (Z.to_nat idx)) as [chunk|] eqn:Hnth.
  - now exists chunk.
  - apply nth_error_None in Hnth. lia.
Qed.

Lemma getitem_middle {A} (pre : list A) (x : A) (suf : list A) :
  getitem (pre ++ x :: suf) (Z.of_nat (length pre)) = Returned x.
Proof.
  unfold getitem. rewrite length_app. cbn [length].
  rewrite (proj2 (Z.ltb_ge _ _)) by lia.
  rewrite (proj2 (Z.leb_le _ _)) by lia.
  rewrite (proj2 (Z.ltb_lt _ _)) by lia.
  cbn [andb]. rewrite Nat2Z.id.
  rewrite nth_error_app2 by lia. now rewrite Nat.sub_diag.
Qed.

(** The loop over the returned labels never raises: it returns the
    results of the labels that are positions of the chunk list. *)
Lemma collect_results_returned (arith : float_format) (chunks : list Chunk) :
  forall indices pre distances results,
    length distances = length indices ->
    collect_results arith chunks (pre ++ distances) (length pre) indices results
    = Returned (results ++ collected arith chunks indices distances).
Proof.
  unfold collected.
  induction indices as [|idx rest IH]; intros pre distances results Hlen.
  - cbn. now rewrite app_nil_r.
  - destruct distances as [|dist distances]; [discriminate|].
    cbn [collect_results combine flat_map fst snd].
    unfold result_at at 1. fold (valid_position chunks idx).
    replace (pre ++ dist :: distances) with ((pre ++ [dist]) ++ distances)
      by (now rewrite <- app_assoc).
    replace (S (length pre)) with (length (pre ++ [dist]))
      by (rewrite length_app; cbn; lia).
    destruct (valid_position chunks idx) eqn:Hv.
    + destruct (getitem_valid _ _ Hv) as (chunk & Hnth & Hget).
      rewrite Hget, Hnth. cbn [obind].
      replace (getitem ((pre ++ [dist]) ++ distances) (Z.of_nat (length pre)))
        with (Returned (A := Q) dist)
        by (rewrite <- app_assoc; symmetry; apply getitem_middle).
      cbn [obind]. rewrite IH by (cbn in Hlen; lia).
      now rewrite <- app_assoc.
    + rewrite IH by (cbn in Hlen; lia). reflexivity.
Qed.

Lemma collected_app (arith : float_format) (chunks : list Chunk) :
  forall indices distances indices' distances',
    length indices = length distances ->
    collected arith chunks (indices ++ indices') (distances ++ distances')
    = collected arith chunks indices distances
      ++ collected arith chunks indices' distances'.
Proof.
  unfold collected.
  induction indices as [|idx rest IH]; intros [|dist distances] I' D' Hlen;
    try discriminate; trivial.
  cbn [app combine flat_map]. rewrite IH by (cbn in Hlen; lia).
  now rewrite app_assoc.
Qed.

Lemma collected_padding (arith : float_format) (chunks : list Chunk)
      (pad : nat) :
  collected arith chunks (repeat (-1)%Z pad) (repeat FLT_MAX pad) = [].
Proof.
  unfold collected. induction pad as [|pad IH]; trivial.
  cbn [repeat combine flat_map fst snd]. rewrite IH.
  unfold result_at, valid_position.
  change (-1 >=? 0)%Z with false. now rewrite andb_false_r.
Qed.

Lemma collected_In (arith : float_format) (chunks : list Chunk)
      indices distances r :
  In r (collected arith chunks indices distances) ->
  exists p distance chunk,
    In (p, distance) (combine indices distances)
    /\ (0 <= p < Z.of_nat (length chunks))%Z
    /\ nth_error chunks (Z.to_nat p) = Some chunk
    /\ r = mkResult (chunk_id chunk) (text chunk)
                    (similarity_of_distance arith distance).
Proof.
  unfold collected. intros Hin. apply in_flat_map in Hin.
  destruct Hin as ([p distance] & Hin & Hr). cbn [fst snd] in Hr.
  unfold result_at in Hr.
  destruct (valid_position chunks p) eqn:Hv; [|contradiction].
  destruct (nth_error chunks (Z.to_nat p)) as [chunk|] eqn:Hnth;
    [|contradiction].
  destruct Hr as [<-|[]].
  exists p, distance, chunk. repeat split; trivial;
    unfold valid_position in Hv; apply andb_true_iff in Hv;
    destruct Hv as [Hlt Hge];
    [now apply Z.geb_le in Hge | now apply Z.ltb_lt in Hlt].
Qed.

Lemma nth_error_combine {A B} (l1 : list A) (l2 : list B) :
  forall n a b,
    nth_error (combine l1 l2) n = Some (a, b) ->
    nth_error l1 n = Some a /\ nth_error l2 n = Some b.
Proof.
  revert l2. induction l1 as [|x l1 IH]; intros [|y l2] [|n] a b H;
    cbn in H; try discriminate.
  - inversion H; subst. now split.
  - cbn. now apply IH.
Qed.

Lemma combine_snd_fst_In (hs : list (Q * Z)) p distance :
  In (p, distance) (combine (map snd hs) (map fst hs)) -> In (distance, p) hs.
Proof.
  induction hs as [|[dist label] hs IH]; cbn; [tauto|].
  intros [H|H]; [left; congruence | right; auto].
Qed.

(** With every label a position of the chunk list, one result is built
    per hit, in order. *)
Lemma collected_all_valid (arith : float_format) (chunks : list Chunk)
      (hs : list (Q * Z)) :
  (forall h, In h hs -> valid_position chunks (snd h) = true) ->
  map similarity (collected arith chunks (map snd hs) (map fst hs))
  = map (fun h => similarity_of_distance arith (fst h)) hs.
Proof.
  unfold collected. induction hs as [|h hs IH]; intros Hv; trivial.
  cbn [map combine flat_map fst snd]. rewrite map_app, IH
    by (intros; apply Hv; now right).
  unfold result_at. rewrite (Hv h) by now left.
  destruct (getitem_valid chunks (snd h) (Hv h (or_introl eq_refl)))
    as (chunk & -> & _).
  reflexivity.
Qed.

Lemma all_hits_vector index x distance label :
  In (distance, label) (all_hits index x) ->
  exists v,
    nth_error (xb index) (Z.to_nat label) = Some v
    /\ distance = fvec_L2sqr x v.
Proof.
  unfold all_hits, ntotal.
  assert (Hfrom : forall (vs : list vector) (start : nat),
             In (distance, label)
                (combine (map (fvec_L2sqr x) vs)
                         (map Z.of_nat (seq start (length vs)))) ->
             exists v,
               nth_error vs (Z.to_nat label - start) = Some v
               /\ distance = fvec_L2sqr x v).
  { induction vs as [|v vs IH]; intros start Hin; cbn in Hin; [tauto|].
    destruct Hin as [Heq|Hin].
    - inversion Heq; subst. exists v.
      rewrite Nat2Z.id, Nat.sub_diag. now split.
    - assert (Hlabel : (Z.of_nat (S start) <= label)%Z).
      { apply in_combine_r in Hin. apply in_map_iff in Hin.
        destruct Hin as (j & <- & Hj). apply in_seq in Hj. lia. }
      destruct (IH (S start) Hin) as (v' & Hnth & Hd).
      exists v'. split; trivial.
      replace (Z.to_nat label - start) with (S (Z.to_nat label - S start))
        by lia.
      exact Hnth. }
  intros Hin. rewrite <- (Nat.sub_0_r (Z.to_nat label)).
  apply (Hfrom (xb index) 0 Hin).
Qed.

Section Retrieval.

Variable embeddings_create : str -> outcome vector.
Variable arith : float_format.

Lemma search_body_loaded disk query top_k index chunks qe distances indices :
  load_faiss_index disk = (Some index, Some chunks) ->
  get_embedding embeddings_create query = Returned qe ->
  index_search index (float32_vector qe) top_k = Returned (distances, indices) ->
  search_body embeddings_create arith disk query top_k
  = Returned (collected arith chunks indices distances).
Proof.
  intros Hload Hqe Hfound. unfold search_body.
  rewrite Hload, Hqe. cbn [obind]. rewrite Hfound. cbn [obind fst snd].
  apply index_search_returned in Hfound.
  destruct Hfound as (_ & _ & _ & _ & HD & HI).
  apply (collect_results_returned arith chunks indices [] distances []).
  congruence.
Qed.

(** A search either gives no result or gives the results collected from
    the rows the index returned. *)
Lemma search_similar_chunks_cases disk query top_k :
  search_similar_chunks embeddings_create arith disk query top_k = []
  \/ exists index chunks qe distances indices,
       load_faiss_index disk = (Some index, Some chunks)
       /\ get_embedding embeddings_create query = Returned qe
       /\ index_search index (float32_vector qe) top_k = Returned (distances, indices)
       /\ search_similar_chunks embeddings_create arith disk query top_k
          = collected arith chunks indices distances.
Proof.
  unfold search_similar_chunks.
  destruct (load_faiss_index_cases disk)
    as [(index & chunks & _ & _ & Hload)|(_ & Hload)].
  - destruct (get_embedding embeddings_create query) as [qe|e] eqn:Hqe.
    + destruct (index_search index (float32_vector qe) top_k) as [[distances indices]|e]
        eqn:Hfound.
      * right. exists index, chunks, qe, distances, indices.
        repeat split; trivial.
        now rewrite (search_body_loaded _ _ _ _ _ _ _ _ Hload Hqe Hfound).
      * left. unfold search_body. rewrite Hload, Hqe. cbn [obind].
        now rewrite Hfound.
    + left. unfold search_body. now rewrite Hload, Hqe.
  - left. unfold search_body. now rewrite Hload.
Qed.

(** Where a search result comes from. *)
Lemma search_result_origin disk query top_k r :
  In r (search_similar_chunks embeddings_create arith disk query top_k) ->
  exists index chunks qe distances indices p distance chunk,
    load_faiss_index disk = (Some index, Some chunks)
    /\ get_embedding embeddings_create query = Returned qe
    /\ index_search index (float32_vector qe) top_k = Returned (distances, indices)
    /\ In (p, distance) (combine indices distances)
    /\ (0 <= p < Z.of_nat (length chunks))%Z
    /\ nth_error chunks (Z.to_nat p) = Some chunk
    /\ r = mkResult (chunk_id chunk) (text chunk)
                    (similarity_of_distance arith distance)
    /\ In (distance, p) (nearest index (float32_vector qe) top_k).
Proof.
  intros Hin.
  destruct (search_similar_chunks_cases disk query top_k)
    as [Hnone|(index & chunks & qe & distances & indices
               & Hload & Hqe & Hfound & Hres)].
  - rewrite Hnone in Hin. contradiction.
  - rewrite Hres in Hin. pose proof Hfound as Hrows.
    apply index_search_returned in Hrows.
    destruct Hrows as (_ & _ & HD & HI & _).
    assert (Hsplit : collected arith chunks indices distances
                     = collected arith chunks
                         (map snd (nearest index (float32_vector qe) top_k))
                         (map fst (nearest index (float32_vector qe) top_k))).
    { rewrite HD, HI, collected_app by now rewrite !length_map.
      now rewrite collected_padding, app_nil_r. }
    pose proof Hin as Hin'. rewrite Hsplit in Hin'.
    apply collected_In in Hin. apply collected_In in Hin'.
    destruct Hin' as (p & distance & chunk & Hpd & Hp & Hnth & Hr).
    exists index, chunks, qe, distances, indices, p, distance, chunk.
    repeat split; trivial; try lia.
    + rewrite HD, HI. clear - Hpd.
      generalize (top_k - length (nearest index (float32_vector qe) top_k)). intros pad.
      induction (nearest index (float32_vector qe) top_k) as [|h hs IH]; cbn in *; [tauto|].
      destruct Hpd as [H|H]; [now left | right; auto].
    + now apply combine_snd_fst_In.
Qed.

End Retrieval.

(** ** Claims on search *)

(** C2. For every index with [ntotal] stored vectors, every query vector
    of the index's dimension and every [k], the hits of the search are
    [min k ntotal] many and ordered by non-decreasing distance; they are
    the entries of the returned row that are not padding.  When the chunk
    list read with the index has one record per stored vector, as the
    ingestion builds it, [search_similar_chunks] returns one result per
    hit, in that order, so the list has length [min k ntotal] and its
    similarities are non-increasing. *)
Theorem search_nearest_first :
  forall (embeddings_create : str -> outcome vector) (arith : float_format)
         (disk : Disk) (query : str) (top_k : nat) (index : IndexFlatL2)
         (chunks : list Chunk) (qe : vector),
    load_faiss_index disk = (Some index, Some chunks) ->
    length chunks = ntotal index ->
    get_embedding embeddings_create query = Returned qe ->
    length qe = d index ->
    exists distances,
      distances = map fst (nearest index (float32_vector qe) top_k)
      /\ (forall row labels,
            index_search index (float32_vector qe) top_k = Returned (row, labels) ->
            firstn (Nat.min top_k (ntotal index)) row = distances)
      /\ length distances = Nat.min top_k (ntotal index)
      /\ StronglySorted Qle distances
      /\ map similarity
             (search_similar_chunks embeddings_create arith disk query
                                   top_k)
         = map (similarity_of_distance arith) distances
      /\ length (search_similar_chunks embeddings_create arith disk query
                                   top_k)
         = Nat.min top_k (ntotal index)
      /\ StronglySorted (fun a b => (b <= a)%Q)
           (map similarity
                (search_similar_chunks embeddings_create arith disk query
                                   top_k)).
Proof.
  intros embeddings_create arith disk query top_k index chunks qe
         Hload Hcount Hqe Hdim.
  assert (Hdim32 : length (float32_vector qe) = d index)
    by (unfold float32_vector; now rewrite length_map).
  pose proof (nearest_length index (float32_vector qe) top_k) as Hlen.
  assert (Hsim : map similarity
                   (search_similar_chunks embeddings_create arith disk query
                                   top_k)
                 = map (fun h => similarity_of_distance arith (fst h))
                       (nearest index (float32_vector qe) top_k)).
  { destruct top_k as [|k].
    - unfold search_similar_chunks, search_body.
      rewrite Hload, Hqe. cbn [obind]. unfold index_search.
      rewrite (proj2 (Nat.eqb_eq _ _) Hdim32). reflexivity.
    - destruct (index_search_succeeds index (float32_vector qe) (S k)
                  Hdim32 (Nat.lt_0_succ k))
        as (row & labels & Hfound).
      unfold search_similar_chunks.
      rewrite (search_body_loaded _ arith _ _ _ _ _ _ _ _ Hload Hqe Hfound).
      apply index_search_returned in Hfound.
      destruct Hfound as (_ & _ & -> & -> & _).
      rewrite collected_app by now rewrite !length_map.
      rewrite collected_padding, app_nil_r.
      apply collected_all_valid. intros h Hh.
      apply nearest_In in Hh. destruct Hh as [_ Hh].
      unfold valid_position. rewrite Hcount.
      rewrite (proj2 (Z.ltb_lt _ _)), (proj2 (Z.geb_le _ _)) by lia.
      reflexivity. }
  exists (map fst (nearest index (float32_vector qe) top_k)).
  split; [reflexivity|]. split; [|split; [|split; [|split; [|split]]]].
  - intros row labels Hfound. apply index_search_returned in Hfound.
    destruct Hfound as (_ & _ & -> & _).
    rewrite <- Hlen.
    rewrite <- (length_map fst (nearest index (float32_vector qe) top_k)).
    rewrite firstn_app, Nat.sub_diag, firstn_all. cbn [firstn].
    apply app_nil_r.
  - now rewrite length_map.
  - apply distances_sorted, nearest_sorted.
  - now rewrite Hsim, map_map.
  - rewrite <- (length_map similarity), Hsim, length_map. exact Hlen.
  - rewrite Hsim. apply similarities_sorted; [apply nearest_sorted|].
    apply Forall_forall. intros h Hh. now apply nearest_In in Hh.
Qed.

Lemma search_nearest_first_witness :
  exists distances,
    distances
    = map fst (nearest Fixture.three_index (float32_vector [2%Q]) 2)
    /\ (forall row labels,
          index_search Fixture.three_index (float32_vector [2%Q]) 2
          = Returned (row, labels) ->
          firstn (Nat.min 2 (ntotal Fixture.three_index)) row = distances)
    /\ length distances = Nat.min 2 (ntotal Fixture.three_index)
    /\ StronglySorted Qle distances
    /\ map similarity
           (search_similar_chunks Fixture.count_embedder binary64 Fixture.warm
              (lit "zz") 2)
       = map (similarity_of_distance binary64) distances
    /\ length (search_similar_chunks Fixture.count_embedder binary64 Fixture.warm
                 (lit "zz") 2)
       = Nat.min 2 (ntotal Fixture.three_index)
    /\ StronglySorted (fun a b => (b <= a)%Q)
         (map similarity
              (search_similar_chunks Fixture.count_embedder binary64 Fixture.warm
                 (lit "zz") 2)).
Proof.
  apply (search_nearest_first Fixture.count_embedder binary64 Fixture.warm
           (lit "zz") 2 Fixture.three_index Fixture.three_chunks [2%Q]);
    reflexivity.
Defined.

(** C3, as the code has it.  The results of a search are collected slot
    by slot from the two rows the index returned: every result is built
    from the chunk at the label of one slot and carries the similarity
    computed from the distance of that same slot, which is the rounded
    quotient [1.0 / (1.0 + distance)] of floating-point arithmetic, the
    sum rounded first.  The distance is not negative and the similarity
    lies in [0, 1]; it is above 0 for every distance up to the largest
    float32.  The mapping sends the distance 0 to exactly 1, does not
    increase as the distance grows, and maps every non-negative distance
    up to the largest float32 into (0, 1]. *)
Theorem similarity_rounded_from_distance :
  forall (embeddings_create : str -> outcome vector) (arith : float_format)
         (disk : Disk) (query : str) (top_k : nat),
    (forall index chunks qe row labels,
        load_faiss_index disk = (Some index, Some chunks) ->
        get_embedding embeddings_create query = Returned qe ->
        index_search index (float32_vector qe) top_k
        = Returned (row, labels) ->
        search_similar_chunks embeddings_create arith disk query top_k
        = collected arith chunks labels row)
    /\ (forall r,
          In r (search_similar_chunks embeddings_create arith disk query
                                      top_k) ->
          exists index chunks qe row labels slot p distance chunk,
            load_faiss_index disk = (Some index, Some chunks)
            /\ get_embedding embeddings_create query = Returned qe
            /\ index_search index (float32_vector qe) top_k
               = Returned (row, labels)
            /\ nth_error labels slot = Some p
            /\ nth_error row slot = Some distance
            /\ (0 <= p)%Z
            /\ nth_error chunks (Z.to_nat p) = Some chunk
            /\ result_chunk_id r = chunk_id chunk
            /\ result_text r = text chunk
            /\ similarity r = fdiv arith 1 (fadd arith 1 distance)
            /\ (0 <= distance)%Q
            /\ (0 <= similarity r <= 1)%Q
            /\ ((distance <= FLT_MAX)%Q -> (0 < similarity r)%Q))
    /\ similarity_of_distance arith 0 = 1%Q
    /\ (forall near far,
          (0 <= near)%Q -> (near <= far)%Q ->
          (similarity_of_distance arith far
           <= similarity_of_distance arith near)%Q)
    /\ (forall distance,
          (0 <= distance)%Q -> (distance <= FLT_MAX)%Q ->
          (0 < similarity_of_distance arith distance <= 1)%Q).
Proof.
  intros embeddings_create arith disk query top_k.
  split; [|split; [|split; [|split]]].
  - intros index chunks qe row labels Hload Hqe Hfound.
    unfold search_similar_chunks.
    now rewrite (search_body_loaded _ arith _ _ _ _ _ _ _ _
                   Hload Hqe Hfound).
  - intros r Hin. apply search_result_origin in Hin.
    destruct Hin as (index & chunks & qe & row & labels & p & distance
                     & chunk & Hload & Hqe & Hfound & Hslot & Hp & Hnth
                     & -> & Hnear).
    pose proof (nearest_In _ _ _ _ Hnear) as [Hpos _].
    cbn [fst] in Hpos.
    apply In_nth_error in Hslot. destruct Hslot as (slot & Hslot).
    apply nth_error_combine in Hslot. destruct Hslot as [Hl Hr].
    exists index, chunks, qe, row, labels, slot, p, distance, chunk.
    cbn [similarity result_chunk_id result_text].
    fold (similarity_of_distance arith distance).
    repeat split; trivial; try lia.
    + now apply similarity_nonneg.
    + now apply similarity_at_most_one.
    + intros Hmax. now apply similarity_positive.
  - apply similarity_at_zero.
  - intros near far. apply similarity_decreasing.
  - intros distance Hpos Hmax. split.
    + now apply similarity_positive.
    + now apply similarity_at_most_one.
Qed.

Lemma similarity_rounded_from_distance_witness :
  exists slot p distance chunk,
    nth_error [1%Z; 0%Z; 2%Z] slot = Some p
    /\ nth_error [0%Q; 1%Q; 1%Q] slot = Some distance
    /\ nth_error Fixture.three_chunks (Z.to_nat p) = Some chunk
    /\ chunk_id chunk = lit "1"
    /\ fdiv binary32 1 (fadd binary32 1 distance) = (1 # 2)%Q.
Proof.
  destruct (similarity_rounded_from_distance Fixture.count_embedder binary32
              Fixture.warm (lit "zz") 3)
    as (_ & Horigin & _).
  destruct (Horigin (mkResult (lit "1") (lit "a") (1 # 2)))
    as (index & chunks & qe & row & labels & slot & p & distance & chunk
        & Hload & Hqe & Hfound & Hl & Hr & _ & Hnth & Hid & _ & Hsim & _).
  - vm_compute. right. left. reflexivity.
  - inversion Hload; subst index chunks. inversion Hqe; subst qe.
    inversion Hfound; subst row labels.
    exists slot, p, distance, chunk. cbn [result_chunk_id similarity] in *.
    repeat split; trivial; now symmetry.
Defined.

(** C3, as the specification words it, fails: the similarity is the
    rounded quotient, not the quotient, and it is not strictly
    decreasing.  In both arithmetics the two chunks of a pair at the
    distances 0 and 2^-60 from the query get the similarity 1, and the
    similarity reported for the distance 4 is not 1/5. *)
Lemma similarity_is_rounded :
  (exists row,
     index_search (mkIndex 1 [[0%Q]; [(1 # 1073741824)%Q]])
                  (float32_vector [0%Q]) 2
     = Returned (row, [0%Z; 1%Z])
     /\ Forall2 Qeq row [0%Q; (1 # 1152921504606846976)%Q])
  /\ map similarity
         (search_similar_chunks Fixture.fine_embedder binary32
            Fixture.close_pair (lit "") 2)
     = [1%Q; 1%Q]
  /\ map similarity
         (search_similar_chunks Fixture.fine_embedder binary64
            Fixture.close_pair (lit "") 2)
     = [1%Q; 1%Q]
  /\ ~ (1 == 1 / (1 + (1 # 1152921504606846976)))%Q
  /\ (exists row,
        index_search Fixture.three_index (float32_vector [4%Q]) 2
        = Returned (row, [2%Z; 1%Z])
        /\ Forall2 Qeq row [1%Q; 4%Q])
  /\ (forall arith,
        exists reported,
          map similarity
              (search_similar_chunks Fixture.count_embedder arith
                 Fixture.warm (lit "zzzz") 2)
          = [(1 # 2)%Q; reported]
          /\ ~ (reported == 1 / (1 + 4))%Q).
Proof.
  split; [|split; [|split; [|split; [|split]]]].
  - eexists. split; [vm_compute; reflexivity|].
    repeat constructor.
  - vm_compute. reflexivity.
  - vm_compute. reflexivity.
  - vm_compute. discriminate.
  - eexists. split; [vm_compute; reflexivity|].
    repeat constructor.
  - intros [|]; eexists; (split; [vm_compute; reflexivity|]);
      vm_compute; discriminate.
Qed.

(** C5. Whenever the index file or the chunk-metadata file is missing or
    cannot be read, or embedding the query raises, the search returns the
    empty list; no exception leaves [search_similar_chunks]. *)
Theorem search_failure_gives_empty_list :
  forall (embeddings_create : str -> outcome vector) (arith : float_format)
         (disk : Disk) (query : str) (top_k : nat),
    (forall index, content_index disk <> Stored index)
    \/ (forall chunks, embedded_chunks_pkl disk <> Stored chunks)
    \/ (exists e, get_embedding embeddings_create query = Raised e) ->
    search_similar_chunks embeddings_create arith disk query top_k = [].
Proof.
  intros embeddings_create arith disk query top_k Hfail.
  destruct (search_similar_chunks_cases embeddings_create arith disk query
                                        top_k)
    as [Hnone|(index & chunks & qe & row & labels & Hload & Hqe & _)];
    trivial.
  exfalso.
  destruct (load_faiss_index_cases disk)
    as [(index' & chunks' & Hi & Hc & _)|(_ & Hnone)]; [|congruence].
  destruct Hfail as [H|[H|(e & H)]].
  - now apply (H index').
  - now apply (H chunks').
  - congruence.
Qed.

Lemma search_failure_gives_empty_list_witness :
  search_similar_chunks Fixture.count_embedder binary64 Fixture.index_only
    (lit "zz") 3 = []
  /\ search_similar_chunks Fixture.count_embedder binary64
       Fixture.index_unreadable (lit "zz") 3 = []
  /\ search_similar_chunks Fixture.failing_embedder binary64 Fixture.warm
       (lit "zz") 3 = [].
Proof.
  split; [|split]; apply search_failure_gives_empty_list.
  - right. left. discriminate.
  - left. discriminate.
  - right. right. eexists. reflexivity.
Defined.

(** C10. The search never reads the chunk list out of bounds, whatever
    the loaded pair, also when the index holds more or fewer vectors than
    the chunk list has records.  The loop over the returned labels does
    not raise: a label that is not a position of the chunk list, such as
    the padding label [-1], contributes nothing, and every result is
    built from the chunk at a returned label [p] with
    [0 <= p < len(embedded_chunks)]. *)
Theorem search_stays_in_bounds :
  forall (embeddings_create : str -> outcome vector) (arith : float_format)
         (disk : Disk) (query : str) (top_k : nat),
    (forall index chunks qe row labels,
        load_faiss_index disk = (Some index, Some chunks) ->
        get_embedding embeddings_create query = Returned qe ->
        index_search index (float32_vector qe) top_k = Returned (row, labels) ->
        search_body embeddings_create arith disk query top_k
        = Returned (collected arith chunks labels row))
    /\ (forall chunks p distance,
          ~ (0 <= p < Z.of_nat (length chunks))%Z ->
          result_at arith chunks p distance = [])
    /\ (forall r,
          In r (search_similar_chunks embeddings_create arith disk query
                                      top_k) ->
          exists index chunks qe row labels p distance chunk,
            load_faiss_index disk = (Some index, Some chunks)
            /\ get_embedding embeddings_create query = Returned qe
            /\ index_search index (float32_vector qe) top_k = Returned (row, labels)
            /\ In (p, distance) (combine labels row)
            /\ (0 <= p < Z.of_nat (length chunks))%Z
            /\ nth_error chunks (Z.to_nat p) = Some chunk
            /\ r = mkResult (chunk_id chunk) (text chunk)
                            (similarity_of_distance arith distance)).
Proof.
  intros embeddings_create arith disk query top_k. split; [|split].
  - intros index chunks qe row labels. apply search_body_loaded.
  - intros chunks p distance Hout. unfold result_at, valid_position.
    destruct (p <? Z.of_nat (length chunks))%Z eqn:Hlt;
      destruct (p >=? 0)%Z eqn:Hge; trivial.
    apply Z.ltb_lt in Hlt. apply Z.geb_le in Hge. lia.
  - intros r Hin. apply search_result_origin in Hin.
    destruct Hin as (index & chunks & qe & row & labels & p & distance
                     & chunk & H1 & H2 & H3 & H4 & H5 & H6 & H7 & _).
    now exists index, chunks, qe, row, labels, p, distance, chunk.
Qed.

Lemma search_stays_in_bounds_witness :
  search_body Fixture.count_embedder binary64 Fixture.mismatched
              (lit "zz") 5
  = Returned [mkResult (lit "1") (lit "a") (1 # 2)]
  /\ result_at binary64 Fixture.three_chunks 3 FLT_MAX = [].
Proof.
  destruct (search_stays_in_bounds Fixture.count_embedder binary64
              Fixture.mismatched (lit "zz") 5) as (Hbody & Hskip & _).
  split.
  - rewrite (Hbody Fixture.three_index
               [mkChunk (lit "1") (lit "a") [1%Q]] [2%Q]
               [0%Q; 1%Q; 1%Q; FLT_MAX; FLT_MAX]
               [1%Z; 0%Z; 2%Z; (-1)%Z; (-1)%Z]); reflexivity.
  - apply Hskip. vm_compute. intros [_ H]. discriminate.
Defined.

(** ** Claims on loading and answering *)

(** C6, as the code has it.  [load_faiss_index] returns the index and the
    chunk list as read whenever both files are read, without comparing
    the length of the chunk list with the number of vectors in the index;
    when either file is missing or cannot be read it returns the pair
    [(None, None)], the same pair for both kinds of failure. *)
Theorem load_gives_pair_or_nothing :
  forall (disk : Disk),
    (forall index chunks,
        content_index disk = Stored index ->
        embedded_chunks_pkl disk = Stored chunks ->
        load_faiss_index disk = (Some index, Some chunks))
    /\ ((forall index, content_index disk <> Stored index)
        \/ (forall chunks, embedded_chunks_pkl disk <> Stored chunks) ->
        load_faiss_index disk = (None, None)).
Proof.
  intros disk.
  destruct (load_faiss_index_cases disk)
    as [(index & chunks & Hi & Hc & Hload)|(Hnone & Hload)]; split.
  - intros index' chunks' Hi' Hc'. congruence.
  - intros [H|H]; [now apply H in Hi | now apply H in Hc].
  - intros index chunks Hi Hc.
    destruct Hnone as [H|H]; [now apply H in Hi | now apply H in Hc].
  - trivial.
Qed.

Lemma load_gives_pair_or_nothing_witness :
  load_faiss_index Fixture.mismatched
  = (Some Fixture.three_index, Some [mkChunk (lit "1") (lit "a") [1%Q]])
  /\ load_faiss_index Fixture.index_only = (None, None).
Proof.
  split.
  - apply (proj1 (load_gives_pair_or_nothing Fixture.mismatched));
      reflexivity.
  - apply (proj2 (load_gives_pair_or_nothing Fixture.index_only)).
    right. discriminate.
Defined.

(** C6, as the specification words it, fails: a pair that violates the
    count invariant is loaded without any failure, and a missing file and
    an unreadable file give the same untyped result. *)
Lemma load_has_no_typed_errors :
  IndexStore_load Fixture.mismatched = inl ArtifactCorruptError
  /\ load_faiss_index Fixture.mismatched
     = (Some Fixture.three_index, Some [mkChunk (lit "1") (lit "a") [1%Q]])
  /\ IndexStore_load Fixture.index_only = inl ArtifactNotFoundError
  /\ IndexStore_load Fixture.index_unreadable = inl ArtifactCorruptError
  /\ load_faiss_index Fixture.index_only
     = load_faiss_index Fixture.index_unreadable.
Proof. vm_compute. auto. Qed.



(** ** The interactive loop *)

Lemma str_eqb_eq (a b : str) : str_eqb a b = true <-> a = b.
Proof.
  unfold str_eqb. destruct (list_eq_dec ascii_dec a b); split;
    intros H; trivial; try discriminate; contradiction.
Qed.

Lemma str_in_In (x : str) (xs : list str) : str_in x xs = true <-> In x xs.
Proof.
  unfold str_in. rewrite existsb_exists. split.
  - intros (y & Hy & Heq). apply str_eqb_eq in Heq. now subst.
  - intros Hin. exists x. split; trivial. now apply str_eqb_eq.
Qed.







Lemma finished_is_final embeddings_create chat_create arith disk lines :
  interactive_search_from embeddings_create chat_create arith disk Finished lines
  = (Finished, []).
Proof.
  induction lines as [|line rest IH]; cbn [interactive_search_from]; trivial.
  cbn [session_step]. now rewrite IH.
Qed.

(** One pass of the loop at the main prompt carries out the action
    chosen for the line read. *)
Lemma interactive_search_step embeddings_create chat_create arith disk line rest :
  interactive_search embeddings_create chat_create arith disk (line :: rest)
  = match dispatch line with
    | Exit => (Finished, [])
    | Reprompt => interactive_search embeddings_create chat_create arith disk rest
    | Ask question =>
        let (final, out) :=
          interactive_search embeddings_create chat_create arith disk rest in
        (final,
         Answered question
           (answer_question embeddings_create chat_create arith disk question)
         :: out)
    | Search query top_k =>
        let results :=
          search_similar_chunks embeddings_create arith disk query top_k in
        let (final, out) :=
          interactive_search_from embeddings_create chat_create arith disk
            (show_results results) rest in
        (final, Searched query top_k results :: out)
    end.
Proof.
  unfold interactive_search. cbn [interactive_search_from].
  unfold session_step. destruct (dispatch line); cbn zeta.
  - now rewrite finished_is_final.
  - now destruct (interactive_search_from _ _ _ _ MainPrompt rest).
  - now destruct (interactive_search_from _ _ _ _ MainPrompt rest).
  - now destruct (interactive_search_from _ _ _ _ (show_results _) rest).
Qed.




(** * Further properties of the program *)

(** ** Counting and measuring the chunks *)

Lemma windows_count_bounds (n m : nat) :
  0 < m ->
  n <= windows_count n m * m /\ windows_count n m * m < n + m.
Proof.
  intros Hm. unfold windows_count.
  pose proof (Nat.div_mod_eq (n + m - 1) m) as Hdiv.
  pose proof (Nat.mod_upper_bound (n + m - 1) m) as Hmod.
  nia.
Qed.

Lemma windows_count_unique (n m count : nat) :
  0 < m -> n <= count * m -> count * m < n + m ->
  count = windows_count n m.
Proof.
  intros Hm Hlow Hhigh.
  destruct (windows_count_bounds n m Hm) as [Hlow' Hhigh']. nia.
Qed.

Lemma range_from_length_bounds (m fuel : nat) : forall start stop,
  0 < m -> stop - start <= fuel ->
  stop - start <= length (range_from fuel start stop m) * m
  /\ length (range_from fuel start stop m) * m < stop - start + m.
Proof.
  induction fuel as [|fuel IH]; intros start stop Hm Hfuel;
    cbn [range_from length]; [lia|].
  destruct (start <? stop) eqn:Hlt; cbn [length].
  - apply Nat.ltb_lt in Hlt.
    destruct (IH (start + m) stop Hm ltac:(lia)) as [Hlow Hhigh].
    remember (length (range_from fuel (start + m) stop m)) as rest.
    rewrite Nat.mul_succ_l.
    destruct (Nat.le_gt_cases (start + m) stop) as [Hfull|Hlast]; [lia|].
    assert (rest = 0) by nia. subst rest. lia.
  - apply Nat.ltb_ge in Hlt. lia.
Qed.

Lemma range_from_length (m fuel : nat) : forall start stop,
  0 < m -> stop - start <= fuel ->
  length (range_from fuel start stop m) = windows_count (stop - start) m.
Proof.
  intros start stop Hm Hfuel.
  destruct (range_from_length_bounds m fuel start stop Hm Hfuel).
  now apply windows_count_unique.
Qed.

Lemma planned_chunks_count (max_size : nat) (content : str) :
  0 < max_size \/ length content <= max_size ->
  length (planned_chunks max_size content)
  = if max_size <? length content
    then windows_count (length content) max_size
    else 1.
Proof.
  intros Hm. unfold planned_chunks.
  destruct (max_size <? length content) eqn:Hlt; trivial.
  apply Nat.ltb_lt in Hlt.
  rewrite length_map, range_from_length by lia. now rewrite Nat.sub_0_r.
Qed.

Section IngestionFacts.

Variable embeddings_create : str -> outcome vector.
Variable storage : Storage.

Lemma ingested_count (max_size : nat) (disk disk' : Disk) (content : str)
      (cs : list Chunk) :
  content_txt disk = Stored content ->
  process_content_file_at embeddings_create storage max_size disk
  = (true, disk') ->
  embedded_chunks_pkl disk' = Stored cs ->
  length cs = length (planned_chunks max_size content)
  /\ (0 < max_size \/ length content <= max_size).
Proof.
  intros Hc Hrun Hpkl.
  apply process_content_file_true in Hrun.
  destruct Hrun as (content' & cs' & index & Hc' & -> & _ & Hm & Ht & _).
  rewrite Hc in Hc'. inversion Hc'; subst content'; clear Hc'.
  cbn [embedded_chunks_pkl] in Hpkl. inversion Hpkl; subst cs'; clear Hpkl.
  split; [|exact Hm]. now rewrite <- (length_map text), Ht.
Qed.

(** X1. A successful ingestion of a corpus longer than the chunk size
    stores as many chunks as windows of that size are needed to cover the
    corpus, the length divided by the size and rounded up; a corpus that
    fits gives one chunk, also when it is empty. *)
Theorem ingested_chunk_count :
  forall (max_size : nat) (disk disk' : Disk) (content : str)
         (cs : list Chunk),
    content_txt disk = Stored content ->
    process_content_file_at embeddings_create storage max_size disk
    = (true, disk') ->
    embedded_chunks_pkl disk' = Stored cs ->
    length cs
    = if max_size <? length content
      then windows_count (length content) max_size
      else 1.
Proof.
  intros max_size disk disk' content cs Hc Hrun Hpkl.
  destruct (ingested_count max_size disk disk' content cs Hc Hrun Hpkl)
    as [-> Hm].
  now apply planned_chunks_count.
Qed.

(** X2. In a successful ingestion the chunk at position [i], counting
    from 0, holds [min(max_size, len(content) - i * max_size)]
    characters: every chunk before the last is exactly [max_size] long,
    and no chunk is empty unless the corpus is. *)
Theorem ingested_chunk_sizes :
  forall (max_size : nat) (disk disk' : Disk) (content : str)
         (cs : list Chunk) (i : nat) (c : Chunk),
    content_txt disk = Stored content ->
    process_content_file_at embeddings_create storage max_size disk
    = (true, disk') ->
    embedded_chunks_pkl disk' = Stored cs ->
    nth_error cs i = Some c ->
    length (text c) = Nat.min max_size (length content - i * max_size)
    /\ (S i < length cs -> length (text c) = max_size)
    /\ (content <> [] -> text c <> []).
Proof.
  intros max_size disk disk' content cs i c Hc Hrun Hpkl Hi.
  assert (Hcount : length cs
                   = if max_size <? length content
                     then windows_count (length content) max_size
                     else 1).
  { destruct (ingested_count max_size disk disk' content cs Hc Hrun Hpkl)
      as [-> Hm'].
    now apply planned_chunks_count. }
  apply process_content_file_true in Hrun.
  destruct Hrun as (content' & cs' & index & Hc' & -> & _ & Hm & Ht & _).
  rewrite Hc in Hc'. inversion Hc'; subst content'; clear Hc'.
  cbn [embedded_chunks_pkl] in Hpkl. inversion Hpkl; subst cs'; clear Hpkl.
  destruct (planned_chunks_windows max_size content Hm) as (Hwin & _).
  rewrite <- Ht, length_map in Hwin.
  assert (Hlt : i < length cs) by (apply nth_error_Some; congruence).
  assert (Htext : text c
                  = slice content (i * max_size) (i * max_size + max_size)).
  { assert (Hnth : nth_error (map text cs) i = Some (text c))
      by (rewrite nth_error_map, Hi; reflexivity).
    rewrite Hwin, nth_error_map, nth_error_seq in Hnth.
    rewrite (proj2 (Nat.ltb_lt _ _) Hlt) in Hnth. now inversion Hnth. }
  assert (Hlen : length (text c)
                 = Nat.min max_size (length content - i * max_size)).
  { rewrite Htext. unfold slice. rewrite length_firstn, length_skipn.
    f_equal. lia. }
  assert (Hstart : max_size < length content ->
                   length cs * max_size < length content + max_size
                   /\ 0 < max_size).
  { intros Hbig. rewrite (proj2 (Nat.ltb_lt _ _) Hbig) in Hcount.
    assert (Hpos : 0 < max_size) by lia.
    destruct (windows_count_bounds (length content) max_size Hpos). lia. }
  split; [exact Hlen|]. split.
  - intros Hnext. rewrite Hlen.
    destruct (max_size <? length content) eqn:Hbig.
    + apply Nat.ltb_lt in Hbig. destruct (Hstart Hbig). nia.
    + lia.
  - intros Hne Hempty. rewrite Hempty in Hlen. cbn [length] in Hlen.
    destruct content as [|a content]; [congruence|].
    destruct (max_size <? length (a :: content)) eqn:Hbig.
    + apply Nat.ltb_lt in Hbig. destruct (Hstart Hbig). nia.
    + apply Nat.ltb_ge in Hbig.
      assert (i = 0) by lia. subst i. cbn [length] in *. lia.
Qed.

End IngestionFacts.

(** ** Identifiers, artifacts and re-ingestion *)

Lemma lit_injective (a b : string) : lit a = lit b -> a = b.
Proof.
  unfold lit. intros H.
  rewrite <- (string_of_list_ascii_of_string a),
          <- (string_of_list_ascii_of_string b).
  now f_equal.
Qed.

Lemma str_of_nat_injective (n n' : nat) :
  str_of_nat n = str_of_nat n' -> n = n'.
Proof.
  unfold str_of_nat. intros H. apply lit_injective in H.
  apply DecimalNat.Unsigned.to_uint_inj.
  pose proof (NilEmpty.usu (Nat.to_uint n)) as Hn.
  pose proof (NilEmpty.usu (Nat.to_uint n')) as Hn'.
  rewrite H in Hn. congruence.
Qed.

Lemma replace_newlines_clean (s : str) : ~ In newline (replace_newlines s).
Proof.
  unfold replace_newlines. intros Hin. apply in_map_iff in Hin.
  destruct Hin as (c & Hc & _).
  destruct (ascii_dec c newline); [discriminate | congruence].
Qed.

Lemma replace_newlines_fixed (s : str) :
  ~ In newline s -> replace_newlines s = s.
Proof.
  unfold replace_newlines. induction s as [|c s IH]; intros Hno; trivial.
  cbn [map]. destruct (ascii_dec c newline) as [->|_].
  - exfalso. apply Hno. now left.
  - f_equal. apply IH. intros Hin. apply Hno. now right.
Qed.

Section ArtifactFacts.

Variable embeddings_create : str -> outcome vector.
Variable storage : Storage.

(** X3. The chunk ids stored by a successful ingestion are pairwise
    distinct. *)
Theorem ingested_chunk_ids_distinct :
  forall (max_size : nat) (disk disk' : Disk) (cs : list Chunk),
    process_content_file_at embeddings_create storage max_size disk
    = (true, disk') ->
    embedded_chunks_pkl disk' = Stored cs ->
    NoDup (map chunk_id cs).
Proof.
  intros max_size disk disk' cs Hrun Hpkl.
  apply process_content_file_true in Hrun.
  destruct Hrun
    as (content & cs' & index & _ & -> & _ & _ & _ & _ & Hseq & Hfull).
  cbn [embedded_chunks_pkl] in Hpkl. inversion Hpkl; subst cs'; clear Hpkl.
  destruct (Nat.lt_ge_cases max_size (length content)) as [Hlt|Hle].
  - rewrite (Hseq Hlt).
    apply Finite.Injective_map_NoDup; [|apply seq_NoDup].
    intros j j' Hj. apply str_of_nat_injective in Hj. lia.
  - rewrite (Hfull Hle). repeat constructor. intros [].
Qed.

(** X4. What a successful ingestion leaves on the disk loads back as a
    consistent pair: the index holds one vector for each chunk record,
    the vector at position [i] is the embedding stored with chunk [i]
    converted to float32, all the embeddings have the dimension of the
    index, and there is at least one chunk.  The corpus file is as it
    was. *)
Theorem ingest_then_load :
  forall (max_size : nat) (disk disk' : Disk),
    process_content_file_at embeddings_create storage max_size disk
    = (true, disk') ->
    exists index cs,
      load_faiss_index disk' = (Some index, Some cs)
      /\ cs <> []
      /\ ntotal index = length cs
      /\ xb index = map (fun c => float32_vector (embedding c)) cs
      /\ (forall i c,
            nth_error cs i = Some c ->
            nth_error (xb index) i = Some (float32_vector (embedding c)))
      /\ Forall (fun c => length (embedding c) = d index) cs
      /\ content_txt disk' = content_txt disk.
Proof.
  intros max_size disk disk' Hrun.
  apply process_content_file_true in Hrun.
  destruct Hrun as (content & cs & index & _ & -> & Hst & _).
  exists index, cs.
  destruct (store_in_faiss_returned _ _ _ Hst) as (_ & Hxb & Hn & Hd).
  split; [reflexivity|]. split; [|repeat split; trivial].
  - intros ->. discriminate.
  - intros i c Hi. now rewrite Hxb, nth_error_map, Hi.
Qed.

(** Chunk records with the same texts and ids, embedded by services that
    agree on those texts, are the same records. *)
Lemma chunks_determined (other_embedder : str -> outcome vector) :
  forall cs cs',
    map text cs = map text cs' ->
    map chunk_id cs = map chunk_id cs' ->
    Forall (fun c => get_embedding embeddings_create (text c)
                     = Returned (embedding c)) cs ->
    Forall (fun c => get_embedding other_embedder (text c)
                     = Returned (embedding c)) cs' ->
    (forall c, In c cs ->
               get_embedding embeddings_create (text c)
               = get_embedding other_embedder (text c)) ->
    cs = cs'.
Proof.
  induction cs as [|c cs IH]; intros [|c' cs'] Ht Hid Hall Hall' Hsame;
    try discriminate; trivial.
  cbn [map] in Ht, Hid.
  inversion Ht as [[Htext Htexts]]. inversion Hid as [[Hcid Hcids]].
  inversion Hall as [|? ? He Hrest]; subst.
  inversion Hall' as [|? ? He' Hrest']; subst.
  f_equal.
  - assert (Hv : Returned (embedding c)
                 = Returned (A := vector) (embedding c')).
    { rewrite <- He, <- He', <- Htext. apply Hsame. now left. }
    inversion Hv. destruct c, c'. cbn in *. congruence.
  - apply IH; trivial. intros c0 Hc0. apply Hsame. now right.
Qed.

(** X5. The artifacts depend on the corpus and on the replies of the
    embedding service alone: two runs that succeed on the same corpus,
    with services that answer alike on its chunks, leave the same disk,
    whatever index and chunk files each of them found. *)
Theorem ingestion_replaces_prior_artifacts :
  forall (other_embedder : str -> outcome vector) (other_storage : Storage)
         (max_size : nat) (disk other disk' other' : Disk) (content : str),
    content_txt disk = Stored content ->
    content_txt other = Stored content ->
    (forall chunk,
        In chunk (planned_chunks max_size content) ->
        get_embedding embeddings_create chunk
        = get_embedding other_embedder chunk) ->
    process_content_file_at embeddings_create storage max_size disk
    = (true, disk') ->
    process_content_file_at other_embedder other_storage max_size other
    = (true, other') ->
    disk' = other'.
Proof.
  intros other_embedder other_storage max_size disk other disk' other'
         content Hc Ho Hsame Hrun Hrun'.
  apply process_content_file_true in Hrun, Hrun'.
  destruct Hrun
    as (c1 & cs & index & Hc1 & -> & Hst & _ & Ht & Hall & Hseq & Hfull).
  destruct Hrun'
    as (c2 & cs' & index' & Hc2 & -> & Hst' & _ & Ht' & Hall' & Hseq'
        & Hfull').
  rewrite Hc in Hc1. inversion Hc1; subst c1.
  rewrite Ho in Hc2. inversion Hc2; subst c2.
  assert (Hlen : length cs = length cs')
    by (rewrite <- (length_map text cs), <- (length_map text cs');
        congruence).
  assert (Heq : cs = cs').
  { apply (chunks_determined other_embedder); trivial.
    - congruence.
    - destruct (Nat.lt_ge_cases max_size (length content)) as [Hlt|Hle].
      + rewrite (Hseq Hlt), (Hseq' Hlt). now rewrite Hlen.
      + now rewrite (Hfull Hle), (Hfull' Hle).
    - intros c Hin. apply Hsame. rewrite <- Ht. now apply in_map. }
  subst cs'. rewrite Hst in Hst'. inversion Hst'; subst index'.
  now rewrite Hc, Ho.
Qed.

(** X6. Embeddings of different lengths are fatal: when the embedder
    returns vectors of two different lengths for two chunks of the
    corpus, the ingestion reports failure and writes nothing. *)
Theorem ingestion_rejects_mixed_dimensions :
  forall (max_size : nat) (disk : Disk) (content chunk chunk' : str)
         (v v' : vector),
    content_txt disk = Stored content ->
    In chunk (planned_chunks max_size content) ->
    In chunk' (planned_chunks max_size content) ->
    get_embedding embeddings_create chunk = Returned v ->
    get_embedding embeddings_create chunk' = Returned v' ->
    length v <> length v' ->
    process_content_file_at embeddings_create storage max_size disk
    = (false, disk).
Proof.
  intros max_size disk content chunk chunk' v v' Hc Hin Hin' Hv Hv' Hne.
  destruct (process_content_file_cases embeddings_create storage
              max_size disk)
    as [Hfail|(content' & cs & index & Hc' & Hst & Hcase & _)]; trivial.
  exfalso.
  destruct (embedded_and_built embeddings_create _ _ _ Hcase)
    as (_ & Ht & Hall & _).
  rewrite Hc in Hc'. inversion Hc'; subst content'; clear Hc'.
  destruct (store_in_faiss_returned _ _ _ Hst) as (_ & _ & _ & Hd).
  rewrite Forall_forall in Hall, Hd.
  rewrite <- Ht in Hin, Hin'. apply in_map_iff in Hin, Hin'.
  destruct Hin as (c & <- & Hin). destruct Hin' as (c' & <- & Hin').
  pose proof (Hall c Hin) as He. pose proof (Hall c' Hin') as He'.
  pose proof (Hd c Hin) as Hl. pose proof (Hd c' Hin') as Hl'.
  rewrite Hv in He. rewrite Hv' in He'.
  inversion He; inversion He'; subst. congruence.
Qed.

(** X7. The embedding service never receives a line break: the text sent
    for [text] is [text] with each line break replaced by one space (so
    of the same length), and two texts that differ only in line breaks
    against spaces get the same embedding. *)
Theorem get_embedding_normalises_newlines :
  forall (text other : str),
    get_embedding embeddings_create text
    = embeddings_create (replace_newlines text)
    /\ ~ In newline (replace_newlines text)
    /\ length (replace_newlines text) = length text
    /\ (~ In newline text -> replace_newlines text = text)
    /\ (replace_newlines text = replace_newlines other ->
        get_embedding embeddings_create text
        = get_embedding embeddings_create other).
Proof.
  intros text other. unfold get_embedding.
  split; [reflexivity|]. split; [apply replace_newlines_clean|].
  split; [unfold replace_newlines; apply length_map|].
  split; [apply replace_newlines_fixed|].
  now intros ->.
Qed.

End ArtifactFacts.

(** ** Searching the ingested artifacts *)

Lemma fvec_L2sqr_self (v : vector) : (fvec_L2sqr v v == 0)%Q.
Proof.
  unfold fvec_L2sqr. induction v as [|a v IH]; cbn [combine map fold_right].
  - reflexivity.
  - cbn [fst snd]. rewrite IH. ring.
Qed.

Lemma all_hits_stored index x i v :
  nth_error (xb index) i = Some v ->
  In (fvec_L2sqr x v, Z.of_nat i) (all_hits index x).
Proof.
  unfold all_hits, ntotal.
  assert (Hfrom : forall (vs : list vector) (start i : nat),
             nth_error vs i = Some v ->
             In (fvec_L2sqr x v, Z.of_nat (start + i))
                (combine (map (fvec_L2sqr x) vs)
                         (map Z.of_nat (seq start (length vs))))).
  { induction vs as [|v0 vs IH]; intros start [|j] Hnth; cbn in Hnth;
      try discriminate; cbn [length seq map combine].
    - inversion Hnth; subst. left. now rewrite Nat.add_0_r.
    - right. replace (start + S j) with (S start + j) by lia. now apply IH. }
  intros Hnth. apply (Hfrom (xb index) 0 i Hnth).
Qed.

Lemma sorted_head_least (h0 h : Q * Z) (t : list (Q * Z)) :
  StronglySorted hit_le (h0 :: t) -> In h (h0 :: t) -> hit_le h0 h.
Proof.
  intros Hs [<-|Hin].
  - unfold hit_le. apply Qle_refl.
  - apply StronglySorted_inv in Hs. destruct Hs as [_ Hall].
    rewrite Forall_forall in Hall. now apply Hall.
Qed.

(** The first hit is at most as far as any stored vector. *)
Lemma nearest_head index x k h :
  0 < k -> In h (all_hits index x) ->
  exists h0 t,
    nearest index x k = h0 :: t
    /\ In h0 (all_hits index x)
    /\ (fst h0 <= fst h)%Q.
Proof.
  intros Hk Hin. unfold nearest.
  pose proof (sort_hits_sorted (all_hits index x)) as Hs.
  pose proof (sort_hits_In (all_hits index x)) as Hmem.
  destruct (sort_hits (all_hits index x)) as [|h0 t].
  - apply Hmem in Hin. contradiction.
  - destruct k as [|k]; [lia|]. cbn [firstn].
    exists h0, (firstn k t). split; [reflexivity|]. split.
    + apply Hmem. now left.
    + apply (sorted_head_least h0 h t Hs). now apply Hmem.
Qed.

Lemma collected_length (arith : float_format) (chunks : list Chunk) :
  forall indices distances,
    length (collected arith chunks indices distances) <= length indices.
Proof.
  unfold collected.
  induction indices as [|idx rest IH]; intros [|dist distances];
    cbn [combine flat_map length]; try lia.
  rewrite length_app. specialize (IH distances).
  unfold result_at at 1. cbn [fst snd].
  destruct (valid_position chunks idx); cbn [length]; try lia.
  destruct (nth_error chunks (Z.to_nat idx)); cbn [length]; lia.
Qed.

Section SearchFacts.

Variable embeddings_create : str -> outcome vector.
Variable arith : float_format.

(** The results for a pair with one chunk record per stored vector. *)
Lemma search_of_consistent_pair disk query top_k index chunks qe :
  load_faiss_index disk = (Some index, Some chunks) ->
  length chunks = ntotal index ->
  get_embedding embeddings_create query = Returned qe ->
  length qe = d index ->
  0 < top_k ->
  search_similar_chunks embeddings_create arith disk query top_k
  = collected arith chunks
              (map snd (nearest index (float32_vector qe) top_k))
              (map fst (nearest index (float32_vector qe) top_k)).
Proof.
  intros Hload Hcount Hqe Hdim Hk.
  assert (Hdim32 : length (float32_vector qe) = d index)
    by (unfold float32_vector; now rewrite length_map).
  destruct (index_search_succeeds index (float32_vector qe) top_k Hdim32 Hk)
    as (row & labels & Hfound).
  unfold search_similar_chunks.
  rewrite (search_body_loaded _ arith _ _ _ _ _ _ _ _ Hload Hqe Hfound).
  apply index_search_returned in Hfound.
  destruct Hfound as (_ & _ & -> & -> & _).
  rewrite collected_app by now rewrite !length_map.
  now rewrite collected_padding, app_nil_r.
Qed.

(** When the converted query vector is one of the stored vectors, the
    first result is built from a stored vector at distance 0 and has the
    similarity 1. *)
Lemma exact_match_found_first disk query top_k index chunks qe i :
  load_faiss_index disk = (Some index, Some chunks) ->
  length chunks = ntotal index ->
  get_embedding embeddings_create query = Returned qe ->
  length qe = d index ->
  nth_error (xb index) i = Some (float32_vector qe) ->
  0 < top_k ->
  exists r rest label c' v,
    search_similar_chunks embeddings_create arith disk query top_k
    = r :: rest
    /\ similarity r = 1%Q
    /\ (0 <= label)%Z
    /\ nth_error chunks (Z.to_nat label) = Some c'
    /\ result_chunk_id r = chunk_id c'
    /\ result_text r = text c'
    /\ nth_error (xb index) (Z.to_nat label) = Some v
    /\ (fvec_L2sqr (float32_vector qe) v == 0)%Q.
Proof.
  intros Hload Hcount Hqe Hdim Hvec Hk.
  destruct (nearest_head index (float32_vector qe) top_k _ Hk
              (all_hits_stored index (float32_vector qe) i _ Hvec))
    as ([dist label] & t & Hnear & Hmem & Hle).
  cbn [fst] in Hle.
  destruct (all_hits_In _ _ _ Hmem) as [Hpos Hlabel]. cbn [fst snd] in *.
  destruct (all_hits_vector _ _ _ _ Hmem) as (v & Hv & Hdist).
  assert (Hzero : (dist == 0)%Q).
  { apply Qle_antisym; trivial.
    rewrite <- (fvec_L2sqr_self (float32_vector qe)). exact Hle. }
  destruct (nth_error chunks (Z.to_nat label)) as [c'|] eqn:Hc'.
  2:{ apply nth_error_None in Hc'. lia. }
  rewrite (search_of_consistent_pair _ query top_k index chunks qe)
    by trivial.
  rewrite Hnear. unfold collected. cbn [map combine flat_map fst snd].
  unfold result_at at 1. unfold valid_position.
  rewrite (proj2 (Z.ltb_lt _ _)), (proj2 (Z.geb_le _ _)) by lia.
  cbn [andb]. rewrite Hc'. cbn [app].
  eexists _, _, label, c', v. split; [reflexivity|].
  cbn [similarity result_chunk_id result_text].
  split; [now apply similarity_of_exact_match|].
  split; [lia|]. split; [exact Hc'|].
  split; [reflexivity|]. split; [reflexivity|].
  split; [exact Hv|]. now rewrite <- Hdist.
Qed.

(** X8. After a successful ingestion, a search with [top_k] at least 1
    whose query the embedding service answers, at the time of the search,
    with a vector that converts to the same float32 vector as the
    embedding stored with one of the chunks, gives a first result of
    similarity 1: the result of a stored chunk whose converted embedding
    is at distance 0 from the converted query vector.  (It need not be
    the chunk searched for: two chunks may share a converted
    embedding.) *)
Theorem ingested_chunk_found_first :
  forall (ingestion_embedder : str -> outcome vector) (storage : Storage)
         (max_size : nat) (disk disk' : Disk) (cs : list Chunk)
         (c : Chunk) (query : str) (qe : vector) (top_k : nat),
    process_content_file_at ingestion_embedder storage max_size disk
    = (true, disk') ->
    embedded_chunks_pkl disk' = Stored cs ->
    In c cs ->
    get_embedding embeddings_create query = Returned qe ->
    float32_vector qe = float32_vector (embedding c) ->
    0 < top_k ->
    exists r rest c',
      search_similar_chunks embeddings_create arith disk' query top_k
      = r :: rest
      /\ similarity r = 1%Q
      /\ In c' cs
      /\ result_chunk_id r = chunk_id c'
      /\ result_text r = text c'
      /\ (fvec_L2sqr (float32_vector qe) (float32_vector (embedding c'))
          == 0)%Q.
Proof.
  intros ingestion_embedder storage max_size disk disk' cs c query qe top_k
         Hrun Hpkl Hin Hqe Hsame Hk.
  apply process_content_file_true in Hrun.
  destruct Hrun as (content & cs' & index & _ & -> & Hst & _).
  cbn [embedded_chunks_pkl] in Hpkl. inversion Hpkl; subst cs'; clear Hpkl.
  destruct (store_in_faiss_returned _ _ _ Hst) as (_ & Hxb & Hn & Hd).
  rewrite Forall_forall in Hd.
  assert (Hdim : length qe = d index).
  { rewrite <- (Hd c Hin).
    rewrite <- (length_map (round_float binary32) qe).
    rewrite <- (length_map (round_float binary32) (embedding c)).
    now f_equal. }
  destruct (In_nth_error cs c Hin) as (i & Hi).
  assert (Hvec : nth_error (xb index) i = Some (float32_vector qe))
    by (rewrite Hxb, nth_error_map, Hi, Hsame; reflexivity).
  destruct (exact_match_found_first
              (mkDisk (content_txt disk) (Stored index) (Stored cs))
              query top_k index cs qe i eq_refl (eq_sym Hn) Hqe Hdim Hvec Hk)
    as (r & rest & label & c' & v & Hres & Hsim & _ & Hc' & Hid & Htext
        & Hv & Hzero).
  exists r, rest, c'. split; [exact Hres|]. split; [exact Hsim|].
  split; [now apply nth_error_In in Hc'|].
  split; [exact Hid|]. split; [exact Htext|].
  rewrite Hxb, nth_error_map, Hc' in Hv. cbn [option_map] in Hv.
  inversion Hv; subst v. exact Hzero.
Qed.

(** X9. Whatever is on the disk, whatever the query and whatever the
    services do, a search returns at most [top_k] results. *)
Theorem search_returns_at_most_top_k :
  forall (disk : Disk) (query : str) (top_k : nat),
    length (search_similar_chunks embeddings_create arith disk query top_k)
    <= top_k.
Proof.
  intros disk query top_k.
  destruct (search_similar_chunks_cases embeddings_create arith disk query
                                        top_k)
    as [->|(index & chunks & qe & row & labels & _ & _ & Hfound & ->)].
  - cbn. lia.
  - apply index_search_returned in Hfound.
    destruct Hfound as (_ & _ & _ & _ & _ & Hlabels).
    rewrite <- Hlabels. apply collected_length.
Qed.

End SearchFacts.

(** ** Answering *)

Lemma infix_of_refl (s : str) : infix_of s s.
Proof. exists [], []. now rewrite app_nil_r. Qed.

Lemma infix_of_wrapped (part whole before after : str) :
  infix_of part whole -> infix_of part (before ++ whole ++ after).
Proof.
  intros (b & a & ->). exists (before ++ b), (a ++ after).
  now rewrite <- !app_assoc.
Qed.

Lemma join_contains (sep part : str) (parts : list str) :
  In part parts -> infix_of part (join sep parts).
Proof.
  induction parts as [|p rest IH]; intros Hin; [contradiction|].
  destruct rest as [|p' rest].
  - destruct Hin as [->|[]]. apply infix_of_refl.
  - change (join sep (p :: p' :: rest))
      with (p ++ sep ++ join sep (p' :: rest)).
    destruct Hin as [->|Hin].
    + exists [], (sep ++ join sep (p' :: rest)). reflexivity.
    + destruct (IH Hin) as (b & a & ->).
      exists (p ++ sep ++ b), a. now rewrite <- !app_assoc.
Qed.

(** X10. When the search finds something, [answer_question] sends one
    prompt to the generation service: the fixed frame around the texts
    of the results, in result order and joined by the separator, and the
    question.  Every retrieved text and the question
    occur in the prompt.  The answer is what the service returns, and
    when the service fails it is the apology followed by the error. *)
Theorem answer_prompt_carries_context :
  forall (embeddings_create : str -> outcome vector)
         (chat_create : str -> outcome str) (arith : float_format)
         (disk : Disk) (query : str),
    search_similar_chunks embeddings_create arith disk query 5 <> [] ->
    exists results prompt,
      results = search_similar_chunks embeddings_create arith disk query 5
      /\ prompt
         = prompt_head
           ++ join context_separator (map result_text results)
           ++ prompt_middle ++ query ++ prompt_tail
      /\ (forall r, In r results -> infix_of (result_text r) prompt)
      /\ infix_of query prompt
      /\ answer_body embeddings_create chat_create arith disk query
         = chat_create prompt
      /\ (forall answer,
            chat_create prompt = Returned answer ->
            answer_question embeddings_create chat_create arith disk query
            = answer)
      /\ (forall e,
            chat_create prompt = Raised e ->
            answer_question embeddings_create chat_create arith disk query
            = sorry_prefix ++ exn_str e).
Proof.
  intros embeddings_create chat_create arith disk query Hsome.
  eexists _, _. split; [reflexivity|].
  split; [reflexivity|].
  assert (Hbody : answer_body embeddings_create chat_create arith disk query
                  = chat_create
                      (prompt_head
                       ++ join context_separator
                            (map result_text
                               (search_similar_chunks embeddings_create arith disk
                                  query 5))
                       ++ prompt_middle ++ query ++ prompt_tail)).
  { unfold answer_body.
    destruct (search_similar_chunks embeddings_create arith disk query 5);
      [congruence | reflexivity]. }
  split; [|split; [|split; [exact Hbody|split]]].
  - intros r Hr. apply infix_of_wrapped, join_contains.
    now apply in_map.
  - exists (prompt_head
            ++ join context_separator
                 (map result_text
                    (search_similar_chunks embeddings_create arith disk query 5))
            ++ prompt_middle), prompt_tail.
    now rewrite <- !app_assoc.
  - intros answer Ha. unfold answer_question. now rewrite Hbody, Ha.
  - intros e He. unfold answer_question. now rewrite Hbody, He.
Qed.

(** ** The session *)

Lemma lstrip_idempotent (s : str) : lstrip (lstrip s) = lstrip s.
Proof.
  induction s as [|c s IH]; trivial. cbn [lstrip].
  destruct (is_space c) eqn:Hc; [exact IH|]. cbn [lstrip]. now rewrite Hc.
Qed.

Lemma lstrip_head (s : str) (c : ascii) (t : str) :
  lstrip s = c :: t -> is_space c = false.
Proof.
  induction s as [|a s IH]; cbn [lstrip]; [discriminate|].
  destruct (is_space a) eqn:Ha; intros H; [now apply IH|].
  injection H as Hac _. now rewrite <- Hac.
Qed.

Lemma lstrip_keeps (s : str) :
  (forall c t, s = c :: t -> is_space c = false) -> lstrip s = s.
Proof.
  destruct s as [|a s]; trivial. intros H. cbn [lstrip].
  now rewrite (H a s eq_refl).
Qed.

Lemma lstrip_drops_prefix (s : str) : exists dropped, s = dropped ++ lstrip s.
Proof.
  induction s as [|a s (dropped & IH)]; [now exists []|]. cbn [lstrip].
  destruct (is_space a).
  - exists (a :: dropped). cbn [app]. now f_equal.
  - now exists [].
Qed.

Lemma rstrip_drops_suffix (s : str) : exists dropped, s = rstrip s ++ dropped.
Proof.
  unfold rstrip. destruct (lstrip_drops_prefix (rev s)) as (dropped & H).
  exists (rev dropped). rewrite <- rev_app_distr, <- H.
  symmetry. apply rev_involutive.
Qed.

Lemma strip_idempotent (s : str) : strip (strip s) = strip s.
Proof.
  assert (Hleft : lstrip (strip s) = strip s).
  { unfold strip. apply lstrip_keeps. intros c t Hc.
    destruct (rstrip_drops_suffix (lstrip s)) as (dropped & H).
    rewrite Hc in H. apply (lstrip_head s c (t ++ dropped)). exact H. }
  unfold strip at 1. rewrite Hleft.
  unfold strip, rstrip. rewrite rev_involutive, lstrip_idempotent.
  reflexivity.
Qed.

Lemma dispatch_ask (line question : str) :
  dispatch line = Ask question ->
  question <> [] /\ strip question = question.
Proof.
  unfold dispatch.
  destruct (str_in (lower line) quit_words); [discriminate|].
  destruct (strip line) as [|c rest]; [discriminate|].
  destruct (startswith (c :: rest) question_mark); [|discriminate].
  destruct (strip (slice (c :: rest) 1 (length (c :: rest))))
    as [|a q] eqn:Hq; [discriminate|].
  intros H. inversion H; subst question; clear H.
  split; [discriminate|]. rewrite <- Hq. apply strip_idempotent.
Qed.

Lemma dispatch_search (line query : str) (top_k : nat) :
  dispatch line = Search query top_k ->
  query = line /\ top_k = 3 /\ strip line <> []
  /\ ~ In (lower line) quit_words.
Proof.
  unfold dispatch.
  destruct (str_in (lower line) quit_words) eqn:Hq; [discriminate|].
  destruct (strip line) as [|c rest]; [discriminate|].
  destruct (startswith (c :: rest) question_mark).
  - destruct (strip (slice (c :: rest) 1 (length (c :: rest))));
      discriminate.
  - intros H. inversion H; subst. repeat split; try discriminate.
    intros Hin. apply str_in_In in Hin. congruence.
Qed.

Section SessionFacts.

Variable embeddings_create : str -> outcome vector.
Variable chat_create : str -> outcome str.
Variable arith : float_format.

Lemma search_results_persisted disk query top_k r :
  In r (search_similar_chunks embeddings_create arith disk query top_k) ->
  In (result_text r) (persisted_texts disk).
Proof.
  intros Hin. apply search_result_origin in Hin.
  destruct Hin as (index & chunks & qe & row & labels & p & distance & chunk
                   & Hload & _ & _ & _ & _ & Hnth & -> & _).
  unfold persisted_texts.
  destruct (load_faiss_index_cases disk)
    as [(index' & chunks' & _ & Hc & Hload')|(_ & Hnone)];
    [|congruence].
  rewrite Hc. assert (chunks' = chunks) by congruence. subst chunks'.
  cbn [result_text]. apply in_map. now apply nth_error_In in Hnth.
Qed.

Lemma session_step_ok disk st line :
  Forall (fun r => In (result_text r) (persisted_texts disk))
         (pending_results st) ->
  Forall (fun r => In (result_text r) (persisted_texts disk))
         (pending_results
            (fst (session_step embeddings_create chat_create arith disk st line)))
  /\ Forall (event_ok embeddings_create chat_create arith disk)
            (snd (session_step embeddings_create chat_create arith disk st line)).
Proof.
  intros Hst. destruct st as [|r pending|]; cbn [session_step].
  - destruct (dispatch line) as [| |question|query top_k] eqn:Hd;
      cbn [fst snd pending_results].
    + split; apply Forall_nil.
    + split; apply Forall_nil.
    + destruct (dispatch_ask _ _ Hd) as [Hne Hstrip].
      split; [apply Forall_nil|].
      apply Forall_cons; [|apply Forall_nil]. cbn [event_ok]. auto.
    + destruct (dispatch_search _ _ _ Hd) as (-> & -> & Hne & _).
      split.
      * assert (Hall : Forall
                         (fun r => In (result_text r) (persisted_texts disk))
                         (search_similar_chunks embeddings_create arith disk line 3)).
        { apply Forall_forall. intros r Hr.
          now apply search_results_persisted in Hr. }
        destruct (search_similar_chunks embeddings_create arith disk line 3);
          cbn [show_results pending_results]; trivial.
      * apply Forall_cons; [|apply Forall_nil]. cbn [event_ok]. auto.
  - cbn [pending_results] in Hst. inversion Hst as [|? ? Hr Hpending]; subst.
    cbn [fst snd]. split.
    + destruct pending; cbn [show_results pending_results]; trivial.
    + destruct (str_in (lower line) yes_words); [|apply Forall_nil].
      apply Forall_cons; [exact Hr | apply Forall_nil].
  - cbn [fst snd pending_results]. split; apply Forall_nil.
Qed.

Lemma interactive_search_from_ok disk lines : forall st,
  Forall (fun r => In (result_text r) (persisted_texts disk))
         (pending_results st) ->
  Forall (event_ok embeddings_create chat_create arith disk)
         (snd (interactive_search_from embeddings_create chat_create arith disk
                 st lines)).
Proof.
  induction lines as [|line rest IH]; intros st Hst;
    cbn [interactive_search_from]; [constructor|].
  destruct (session_step_ok disk st line Hst) as [Hnext Hout].
  destruct (session_step embeddings_create chat_create arith disk st line)
    as [st' out].
  cbn [fst snd] in *. specialize (IH st' Hnext).
  destruct (interactive_search_from embeddings_create chat_create arith disk
              st' rest) as [final out'].
  cbn [snd] in *. apply Forall_app. now split.
Qed.

(** X11. Whatever lines are typed, the session only ever searches for a
    line that is not blank, and with [top_k = 3]; it only ever asks the
    answer synthesizer a question that is not empty and has no white
    space around it; and the full content it shows is the text of a
    chunk record on the disk. *)
Theorem session_events_well_formed :
  forall (disk : Disk) (lines : list str) (e : event),
    In e (snd (interactive_search embeddings_create chat_create arith disk lines)) ->
    event_ok embeddings_create chat_create arith disk e.
Proof.
  intros disk lines e Hin.
  pose proof (interactive_search_from_ok disk lines MainPrompt
                (Forall_nil _)) as Hall.
  rewrite Forall_forall in Hall. now apply Hall.
Qed.

Lemma see_more_lines disk results : forall answers rest,
  length answers = length results ->
  interactive_search_from embeddings_create chat_create arith disk
    (show_results results) (answers ++ rest)
  = (fst (interactive_search embeddings_create chat_create arith disk rest),
     shown_contents results answers
     ++ snd (interactive_search embeddings_create chat_create arith disk rest)).
Proof.
  induction results as [|r results IH]; intros [|a answers] rest Hlen;
    try discriminate.
  - cbn [show_results app shown_contents]. unfold interactive_search.
    now destruct (interactive_search_from _ _ _ _ MainPrompt rest).
  - cbn [show_results app shown_contents interactive_search_from
         session_step].
    rewrite IH by (cbn in Hlen; lia).
    now rewrite app_assoc.
Qed.

(** X12. After a search that finds [n] results the next [n] lines answer
    the [See full content?] prompts, one for each result in order, and
    are never read as commands (a [quit] typed there does not end the
    session): a line that lowercased is [y] or [yes] shows the whole text
    of its result, any other line shows nothing, and the session then
    goes on from the main prompt with the lines that follow. *)
Theorem search_then_see_more :
  forall (disk : Disk) (line query : str) (top_k : nat)
         (answers rest : list str),
    dispatch line = Search query top_k ->
    length answers
    = length (search_similar_chunks embeddings_create arith disk query top_k) ->
    interactive_search embeddings_create chat_create arith disk
      (line :: answers ++ rest)
    = (fst (interactive_search embeddings_create chat_create arith disk rest),
       Searched query top_k
         (search_similar_chunks embeddings_create arith disk query top_k)
       :: shown_contents
            (search_similar_chunks embeddings_create arith disk query top_k)
            answers
       ++ snd (interactive_search embeddings_create chat_create arith disk rest)).
Proof.
  intros disk line query top_k answers rest Hd Hlen.
  rewrite interactive_search_step, Hd. cbn zeta.
  now rewrite (see_more_lines disk _ answers rest Hlen).
Qed.

End SessionFacts.

(** X13. The preview of a result text is the text itself when it has at
    most 300 characters, and otherwise has exactly 303: it always starts
    with the first 300 characters of the text, so for a text of 301 or
    302 characters the preview is longer than the text. *)
Theorem preview_shape :
  forall (text : str),
    length (preview text)
    = (if preview_length <? length text
       then preview_length + 3 else length text)
    /\ firstn preview_length (preview text) = firstn preview_length text.
Proof.
  intros text. unfold preview, slice.
  destruct (preview_length <? length text) eqn:Hlong; [|now split].
  apply Nat.ltb_lt in Hlong. rewrite Nat.sub_0_r. cbn [skipn].
  assert (Hlen : length (firstn preview_length text) = preview_length)
    by (rewrite length_firstn; lia).
  split.
  - rewrite length_app, Hlen. reflexivity.
  - rewrite firstn_app, Hlen, Nat.sub_diag, firstn_firstn, Nat.min_id.
    cbn [firstn]. apply app_nil_r.
Qed.

(** ** The entry point *)

Section EntryFacts.

Variable embeddings_create : str -> outcome vector.
Variable chat_create : str -> outcome str.
Variable storage : Storage.
Variable arith : float_format.

Lemma search_without_chunk_file disk query top_k :
  (forall chunks, embedded_chunks_pkl disk <> Stored chunks) ->
  search_similar_chunks embeddings_create arith disk query top_k = [].
Proof.
  intros Hnone.
  destruct (search_similar_chunks_cases embeddings_create arith disk query top_k)
    as [H|(index & chunks & qe & row & labels & Hload & _)]; trivial.
  destruct (load_faiss_index_cases disk)
    as [(index' & chunks' & _ & Hc & _)|(_ & Hfail)]; [|congruence].
  now apply Hnone in Hc.
Qed.

(** X14. When the index file exists the entry point starts the session
    on the disk as it is, without ingesting anything, also when the
    chunk file is missing or unreadable; in that case every search of
    the session finds nothing, every question gets the fixed
    no-information answer, and no content is ever shown. *)
Theorem main_block_keeps_existing_index :
  forall (disk : Disk) (lines : list str),
    path_exists (content_index disk) = true ->
    main_block embeddings_create chat_create storage arith disk lines
    = (disk,
       Some (interactive_search embeddings_create chat_create arith disk lines))
    /\ ((forall chunks, embedded_chunks_pkl disk <> Stored chunks) ->
        forall e,
          In e (snd (interactive_search embeddings_create chat_create arith
                       disk lines)) ->
          match e with
          | Searched _ _ results => results = []
          | Answered _ answer => answer = no_information
          | FullContent _ => False
          end).
Proof.
  intros disk lines Hexists. split.
  - unfold main_block. now rewrite Hexists.
  - intros Hnone e Hin.
    pose proof (interactive_search_from_ok embeddings_create chat_create
                  arith disk lines MainPrompt (Forall_nil _)) as Hall.
    rewrite Forall_forall in Hall. specialize (Hall e Hin).
    destruct e as [question answer|query top_k results|shown];
      cbn [event_ok] in Hall.
    + destruct Hall as (_ & _ & ->).
      unfold answer_question, answer_body.
      now rewrite search_without_chunk_file.
    + destruct Hall as (_ & _ & ->). now apply search_without_chunk_file.
    + unfold persisted_texts in Hall.
      destruct (embedded_chunks_pkl disk) as [| |chunks] eqn:Hc; trivial.
      now apply (Hnone chunks).
Qed.

(** X15. When the index file does not exist the entry point ingests the
    corpus first.  If the ingestion reports failure it stops with
    [exit(1)]: no session is started, and the disk is what the failed
    run left, which is the disk as it was when the corpus file could not
    be read.  If it succeeds the session runs on the disk the ingestion
    left, from which the index and the chunk list load. *)
Theorem main_block_cold_start :
  forall (disk : Disk) (lines : list str),
    content_index disk = Absent ->
    (fst (process_content_file embeddings_create storage disk) = false ->
     main_block embeddings_create chat_create storage arith disk lines
     = (snd (process_content_file embeddings_create storage disk), None)
     /\ ((forall content, content_txt disk <> Stored content) ->
         main_block embeddings_create chat_create storage arith disk lines
         = (disk, None)))
    /\ (fst (process_content_file embeddings_create storage disk) = true ->
        main_block embeddings_create chat_create storage arith disk lines
        = (snd (process_content_file embeddings_create storage disk),
           Some (interactive_search embeddings_create chat_create arith
                   (snd (process_content_file embeddings_create storage
                           disk))
                   lines))
        /\ exists index cs,
             load_faiss_index
               (snd (process_content_file embeddings_create storage disk))
             = (Some index, Some cs)).
Proof.
  intros disk lines Habsent. unfold main_block. rewrite Habsent.
  cbn [path_exists negb].
  pose proof (process_content_file_cases embeddings_create storage
                max_chunk_size disk) as Hcases.
  fold (process_content_file embeddings_create storage disk) in Hcases.
  destruct (process_content_file embeddings_create storage disk)
    as [ok disk'] eqn:Hrun.
  cbn [fst snd]. split; intros ->; cbn [negb].
  - split; [reflexivity|]. intros Hnone.
    destruct Hcases as [Hfail|(content & _ & _ & Hc & _)].
    + now inversion Hfail.
    + now apply Hnone in Hc.
  - split; [reflexivity|].
    unfold process_content_file in Hrun.
    apply process_content_file_true in Hrun.
    destruct Hrun as (content & cs & index & _ & -> & _).
    now exists index, cs.
Qed.

End EntryFacts.

(** ** The migration-plan script *)

(** X16. [main] of the migration-plan script completes exactly when both
    chat requests succeed, and the report then holds the three headings,
    the plan, the schema heading and the schema.  When the analysis
    request fails, [main] ends with a [TypeError] and the report holds
    the three headings only, whatever the schema request returned; when
    only the schema request fails, it ends with a [TypeError] and the
    report stops after the schema heading. *)
Theorem migration_report_written_or_cut :
  forall (tree content : str)
         (chat_completions : list MigrationPlan.message -> outcome str),
    (forall plan schema,
        MigrationPlan.analyze_java_code tree content chat_completions
        = Some plan ->
        MigrationPlan.suggest_mongodb_schema tree content chat_completions
        = Some schema ->
        MigrationPlan.main tree content chat_completions
        = (MigrationPlan.Completed,
           MigrationPlan.title_heading ++ MigrationPlan.analysis_heading
           ++ MigrationPlan.plan_heading ++ plan
           ++ MigrationPlan.schema_heading ++ schema))
    /\ (MigrationPlan.analyze_java_code tree content chat_completions = None ->
        MigrationPlan.main tree content chat_completions
        = (MigrationPlan.TypeErrorRaised,
           MigrationPlan.title_heading ++ MigrationPlan.analysis_heading
           ++ MigrationPlan.plan_heading))
    /\ (forall plan,
          MigrationPlan.analyze_java_code tree content chat_completions
          = Some plan ->
          MigrationPlan.suggest_mongodb_schema tree content chat_completions
          = None ->
          MigrationPlan.main tree content chat_completions
          = (MigrationPlan.TypeErrorRaised,
             MigrationPlan.title_heading ++ MigrationPlan.analysis_heading
             ++ MigrationPlan.plan_heading ++ plan
             ++ MigrationPlan.schema_heading))
    /\ (fst (MigrationPlan.main tree content chat_completions)
        = MigrationPlan.Completed
        <-> (exists plan,
               chat_completions
                 [(lit "developer", MigrationPlan.analysis_developer);
                  (lit "user",
                   MigrationPlan.analysis_prompt_head ++ tree
                   ++ MigrationPlan.analysis_prompt_middle ++ content
                   ++ MigrationPlan.analysis_prompt_tail)]
               = Returned plan)
            /\ (exists schema,
                  chat_completions
                    [(lit "developer", MigrationPlan.schema_developer);
                     (lit "user",
                      MigrationPlan.schema_prompt_head ++ tree
                      ++ MigrationPlan.schema_prompt_middle ++ content
                      ++ MigrationPlan.schema_prompt_tail)]
                  = Returned schema)).
Proof.
  intros tree content chat_completions.
  unfold MigrationPlan.main, MigrationPlan.analyze_java_code,
    MigrationPlan.suggest_mongodb_schema.
  cbv zeta. cbn [app].
  match goal with
  | |- context [chat_completions
                  ((?role, MigrationPlan.analysis_developer) :: ?rest)] =>
      destruct (chat_completions
                  ((role, MigrationPlan.analysis_developer) :: rest))
        as [plan|e]
  end;
    match goal with
    | |- context [chat_completions
                    ((?role, MigrationPlan.schema_developer) :: ?rest)] =>
        destruct (chat_completions
                    ((role, MigrationPlan.schema_developer) :: rest))
          as [schema|e']
    end.
  - split; [|split; [|split]].
    + intros p s Hp Hs. inversion Hp; inversion Hs; subst.
      now rewrite <- !app_assoc.
    + discriminate.
    + discriminate.
    + cbn [fst]. split; [eauto | reflexivity].
  - split; [|split; [|split]].
    + discriminate.
    + discriminate.
    + intros p Hp _. inversion Hp; subst. now rewrite <- !app_assoc.
    + cbn [fst]. split; [discriminate|].
      intros [_ [schema H]]. discriminate.
  - split; [|split; [|split]].
    + discriminate.
    + reflexivity.
    + discriminate.
    + cbn [fst]. split; [discriminate|].
      intros [[plan H] _]. discriminate.
  - split; [|split; [|split]].
    + discriminate.
    + reflexivity.
    + discriminate.
    + cbn [fst]. split; [discriminate|].
      intros [[plan H] _]. discriminate.
Qed.

(** ** Instances of the further properties *)

Lemma ingested_chunk_count_witness :
  length Fixture.hello_chunks
  = if 5 <? length (lit "hello world")
    then windows_count (length (lit "hello world")) 5
    else 1.
Proof.
  apply (ingested_chunk_count Fixture.count_embedder Fixture.sound 5
           (Fixture.corpus "hello world") Fixture.hello_disk
           (lit "hello world") Fixture.hello_chunks); reflexivity.
Defined.

Lemma ingested_chunk_sizes_witness :
  length (lit "hello") = Nat.min 5 (length (lit "hello world") - 0 * 5)
  /\ (1 < length Fixture.hello_chunks -> length (lit "hello") = 5)
  /\ (lit "hello world" <> [] -> lit "hello" <> []).
Proof.
  apply (ingested_chunk_sizes Fixture.count_embedder Fixture.sound 5
           (Fixture.corpus "hello world") Fixture.hello_disk
           (lit "hello world") Fixture.hello_chunks 0
           (mkChunk (lit "1") (lit "hello") [5%Q])); reflexivity.
Defined.

Lemma ingested_chunk_ids_distinct_witness :
  NoDup (map chunk_id Fixture.hello_chunks).
Proof.
  apply (ingested_chunk_ids_distinct Fixture.count_embedder Fixture.sound 5
           (Fixture.corpus "hello world") Fixture.hello_disk
           Fixture.hello_chunks); reflexivity.
Defined.

Lemma ingest_then_load_witness :
  exists index cs,
    load_faiss_index Fixture.hello_disk = (Some index, Some cs)
    /\ cs <> []
    /\ ntotal index = length cs
    /\ xb index = map (fun c => float32_vector (embedding c)) cs
    /\ (forall i c,
          nth_error cs i = Some c ->
          nth_error (xb index) i = Some (float32_vector (embedding c)))
    /\ Forall (fun c => length (embedding c) = d index) cs
    /\ content_txt Fixture.hello_disk
       = content_txt (Fixture.corpus "hello world").
Proof.
  apply (ingest_then_load Fixture.count_embedder Fixture.sound 5
           (Fixture.corpus "hello world") Fixture.hello_disk).
  reflexivity.
Defined.

Lemma ingestion_replaces_prior_artifacts_witness :
  snd (process_content_file_at Fixture.count_embedder Fixture.sound 5
         Fixture.reingest)
  = snd (process_content_file_at Fixture.count_embedder Fixture.sound 5
           (Fixture.corpus "hello world")).
Proof.
  apply (ingestion_replaces_prior_artifacts
           Fixture.count_embedder Fixture.sound
           Fixture.count_embedder Fixture.sound 5
           Fixture.reingest (Fixture.corpus "hello world") _ _
           (lit "hello world")); reflexivity.
Defined.

Lemma ingestion_rejects_mixed_dimensions_witness :
  process_content_file_at Fixture.length_embedder Fixture.sound 5
    (Fixture.corpus "hello world")
  = (false, Fixture.corpus "hello world").
Proof.
  apply (ingestion_rejects_mixed_dimensions Fixture.length_embedder
           Fixture.sound 5
           (Fixture.corpus "hello world") (lit "hello world")
           (lit "hello") (lit "d") (repeat 0%Q 5) (repeat 0%Q 1));
    try reflexivity.
  - vm_compute. auto.
  - vm_compute. auto.
  - discriminate.
Defined.

Lemma get_embedding_normalises_newlines_witness :
  get_embedding Fixture.count_embedder
    [ascii_of_nat 97; newline; ascii_of_nat 98]
  = get_embedding Fixture.count_embedder (lit "a b").
Proof.
  apply (get_embedding_normalises_newlines Fixture.count_embedder
           [ascii_of_nat 97; newline; ascii_of_nat 98] (lit "a b")).
  reflexivity.
Defined.

Lemma ingested_chunk_found_first_witness :
  exists r rest c',
    search_similar_chunks Fixture.count_embedder binary32 Fixture.hello_disk
      (lit "x") 2 = r :: rest
    /\ similarity r = 1%Q
    /\ In c' Fixture.hello_chunks
    /\ result_chunk_id r = chunk_id c'
    /\ result_text r = text c'
    /\ (fvec_L2sqr (float32_vector [1%Q]) (float32_vector (embedding c'))
        == 0)%Q.
Proof.
  apply (ingested_chunk_found_first Fixture.count_embedder binary32
           Fixture.count_embedder Fixture.sound 5
           (Fixture.corpus "hello world") Fixture.hello_disk
           Fixture.hello_chunks (mkChunk (lit "3") (lit "d") [1%Q])
           (lit "x") [1%Q] 2);
    try reflexivity.
  - vm_compute. auto.
  - lia.
Defined.

Lemma answer_prompt_carries_context_witness :
  exists results prompt,
    results = search_similar_chunks Fixture.count_embedder binary64
                Fixture.warm (lit "zz") 5
    /\ prompt
       = prompt_head
         ++ join context_separator (map result_text results)
         ++ prompt_middle ++ lit "zz" ++ prompt_tail
    /\ (forall r, In r results -> infix_of (result_text r) prompt)
    /\ infix_of (lit "zz") prompt
    /\ answer_body Fixture.count_embedder Fixture.failing_chat binary64
         Fixture.warm (lit "zz")
       = Fixture.failing_chat prompt
    /\ (forall answer,
          Fixture.failing_chat prompt = Returned answer ->
          answer_question Fixture.count_embedder Fixture.failing_chat
            binary64 Fixture.warm (lit "zz")
          = answer)
    /\ (forall e,
          Fixture.failing_chat prompt = Raised e ->
          answer_question Fixture.count_embedder Fixture.failing_chat
            binary64 Fixture.warm (lit "zz")
          = sorry_prefix ++ exn_str e).
Proof.
  apply (answer_prompt_carries_context Fixture.count_embedder
           Fixture.failing_chat binary64 Fixture.warm (lit "zz")).
  vm_compute. discriminate.
Defined.

Lemma session_events_well_formed_witness :
  event_ok Fixture.count_embedder Fixture.echo_chat binary64 Fixture.warm
    (Answered (lit "what is migrated")
       (answer_question Fixture.count_embedder Fixture.echo_chat binary64
          Fixture.warm (lit "what is migrated"))).
Proof.
  apply (session_events_well_formed Fixture.count_embedder Fixture.echo_chat
           binary64 Fixture.warm
           [lit "  "; lit " ? what is migrated  "; lit "q"]).
  cbn [interactive_search interactive_search_from].
  vm_compute. left. reflexivity.
Defined.

Lemma search_then_see_more_witness :
  interactive_search Fixture.count_embedder Fixture.echo_chat binary64
    Fixture.warm
    (lit "zz" :: [lit "quit"; lit "Y"; lit "no"] ++ [lit "q"; lit "zz"])
  = (Finished,
     [Searched (lit "zz") 3
        (search_similar_chunks Fixture.count_embedder binary64 Fixture.warm
           (lit "zz") 3);
      FullContent (lit "a")]).
Proof.
  rewrite (search_then_see_more Fixture.count_embedder Fixture.echo_chat
             binary64 Fixture.warm (lit "zz") (lit "zz") 3
             [lit "quit"; lit "Y"; lit "no"] [lit "q"; lit "zz"]);
    reflexivity.
Defined.

Lemma main_block_keeps_existing_index_witness :
  main_block Fixture.count_embedder Fixture.echo_chat Fixture.sound binary64
    Fixture.index_only [lit "zz"; lit "? why"]
  = (Fixture.index_only,
     Some (interactive_search Fixture.count_embedder Fixture.echo_chat
             binary64 Fixture.index_only [lit "zz"; lit "? why"])).
Proof.
  apply (main_block_keeps_existing_index Fixture.count_embedder
           Fixture.echo_chat Fixture.sound binary64 Fixture.index_only
           [lit "zz"; lit "? why"]).
  reflexivity.
Defined.

Lemma main_block_cold_start_witness :
  main_block Fixture.count_embedder Fixture.echo_chat Fixture.sound binary64
    (mkDisk Unreadable Absent Absent) [lit "zz"]
  = (mkDisk Unreadable Absent Absent, None).
Proof.
  destruct (main_block_cold_start Fixture.count_embedder Fixture.echo_chat
              Fixture.sound binary64 (mkDisk Unreadable Absent Absent)
              [lit "zz"] eq_refl) as [Hfail _].
  destruct (Hfail eq_refl) as [_ Hsame].
  apply Hsame. discriminate.
Defined.

Lemma migration_report_written_or_cut_witness :
  MigrationPlan.main (lit "src/") (lit "class A {}") Fixture.plan_only_chat
  = (MigrationPlan.TypeErrorRaised,
     MigrationPlan.title_heading ++ MigrationPlan.analysis_heading
     ++ MigrationPlan.plan_heading ++ lit "the plan"
     ++ MigrationPlan.schema_heading).
Proof.
  apply (migration_report_written_or_cut (lit "src/") (lit "class A {}")
           Fixture.plan_only_chat); reflexivity.
Defined.

(** ** When the ingestion reaches the writes *)

Lemma embed_chunks_succeeds (embeddings_create : str -> outcome vector)
      (chunks : list str) : forall i acc,
  (forall chunk, In chunk chunks ->
     exists v, get_embedding embeddings_create chunk = Returned v) ->
  exists cs, embed_chunks embeddings_create i chunks acc = Returned cs.
Proof.
  induction chunks as [|chunk rest IH]; intros i acc Hall;
    cbn [embed_chunks]; [eauto|].
  destruct (Hall chunk (or_introl eq_refl)) as (v & ->). cbn [obind].
  apply IH. intros c Hc. apply Hall. now right.
Qed.

Lemma store_in_faiss_succeeds (cs : list Chunk) :
  cs <> [] ->
  (forall c c', In c cs -> In c' cs ->
     length (embedding c) = length (embedding c')) ->
  exists index, store_in_faiss cs = Returned (index, cs).
Proof.
  intros Hne Hsame. unfold store_in_faiss.
  destruct cs as [|first rest]; [congruence|].
  replace (forallb _ (first :: rest)) with true; [eauto|].
  symmetry. apply forallb_forall. intros c Hc. apply Nat.eqb_eq.
  apply Hsame; [exact Hc | now left].
Qed.

(** With a readable corpus, embedding calls that succeed and vectors of
    one length, a run builds the index and reports what the writes
    do. *)
Lemma ingestion_reaches_writes
      (embeddings_create : str -> outcome vector) (storage : Storage)
      (max_size : nat) (disk : Disk) (content : str) :
  content_txt disk = Stored content ->
  0 < max_size \/ length content <= max_size ->
  (forall chunk,
      In chunk (planned_chunks max_size content) ->
      exists v, get_embedding embeddings_create chunk = Returned v) ->
  (forall chunk chunk' v v',
      In chunk (planned_chunks max_size content) ->
      In chunk' (planned_chunks max_size content) ->
      get_embedding embeddings_create chunk = Returned v ->
      get_embedding embeddings_create chunk' = Returned v' ->
      length v = length v') ->
  exists index cs,
    store_in_faiss cs = Returned (index, cs)
    /\ map text cs = planned_chunks max_size content
    /\ process_content_file_at embeddings_create storage max_size disk
       = report (write_artifacts storage index cs disk).
Proof.
  intros Hc Hm Hall Hsame.
  assert (Hcs : exists cs,
             map text cs = planned_chunks max_size content
             /\ Forall (fun c => get_embedding embeddings_create (text c)
                                 = Returned (embedding c)) cs
             /\ (if max_size <? length content
                 then embed_chunks embeddings_create 0
                        (planned_chunks max_size content) [] = Returned cs
                 else exists e,
                        get_embedding embeddings_create content = Returned e
                        /\ cs = [mkChunk (lit "full") content e])).
  { destruct (max_size <? length content) eqn:Hlt.
    - destruct (embed_chunks_succeeds embeddings_create
                  (planned_chunks max_size content) 0 [] Hall) as (cs & Hcs).
      exists cs. pose proof Hcs as Hret.
      apply embed_chunks_returned in Hret.
      destruct Hret as (added & -> & Ht & _ & Hok). cbn [app] in *.
      now repeat split.
    - destruct (Hall content) as (e & He).
      { unfold planned_chunks. rewrite Hlt. now left. }
      exists [mkChunk (lit "full") content e]. cbn [map text].
      unfold planned_chunks. rewrite Hlt.
      split; [reflexivity|]. split; [now repeat constructor|eauto]. }
  destruct Hcs as (cs & Ht & Hok & Hbranch).
  destruct (store_in_faiss_succeeds cs) as (index & Hst).
  { intros ->. cbn [map] in Ht.
    pose proof (planned_chunks_count max_size content Hm) as Hcount.
    rewrite <- Ht in Hcount. cbn [length] in Hcount.
    destruct (max_size <? length content) eqn:Hlt; [|discriminate].
    apply Nat.ltb_lt in Hlt.
    destruct (windows_count_bounds (length content) max_size
                ltac:(lia)). lia. }
  { rewrite Forall_forall in Hok. intros c c' Hin Hin'.
    apply (Hsame (text c) (text c')); try (now apply Hok);
      rewrite <- Ht; now apply in_map. }
  exists index, cs. split; [exact Hst|]. split; [exact Ht|].
  unfold process_content_file_at, process_content_body.
  unfold io_bind at 1, read_content.
  rewrite Hc. cbn [read_file].
  destruct (max_size <? length content) eqn:Hlt.
  - apply Nat.ltb_lt in Hlt.
    destruct max_size as [|m]; [lia|].
    unfold io_bind at 1, io_lift at 1. cbn [py_range obind].
    unfold planned_chunks in Hbranch.
    rewrite (proj2 (Nat.ltb_lt _ _) Hlt) in Hbranch.
    unfold io_bind at 1, io_lift at 1. rewrite Hbranch.
    unfold io_bind at 1, io_lift at 1. rewrite Hst.
    reflexivity.
  - destruct Hbranch as (e & He & ->).
    unfold io_bind at 1, io_lift at 1. rewrite He.
    unfold io_bind at 1, io_lift at 1. rewrite Hst.
    reflexivity.
Qed.

(** X17. The ingestion succeeds, and writes both files, whenever the
    corpus file can be read, the embedding call succeeds for each of its
    chunks, the vectors returned all have the same length, and the
    directory creation and the two writes complete. *)
Theorem ingestion_succeeds :
  forall (embeddings_create : str -> outcome vector) (storage : Storage)
         (max_size : nat) (disk : Disk) (content : str),
    content_txt disk = Stored content ->
    0 < max_size \/ length content <= max_size ->
    (forall chunk,
        In chunk (planned_chunks max_size content) ->
        exists v, get_embedding embeddings_create chunk = Returned v) ->
    (forall chunk chunk' v v',
        In chunk (planned_chunks max_size content) ->
        In chunk' (planned_chunks max_size content) ->
        get_embedding embeddings_create chunk = Returned v ->
        get_embedding embeddings_create chunk' = Returned v' ->
        length v = length v') ->
    makedirs_result storage = Returned tt ->
    index_write storage = Written ->
    chunks_write storage = Written ->
    exists index cs,
      process_content_file_at embeddings_create storage max_size disk
      = (true, mkDisk (content_txt disk) (Stored index) (Stored cs))
      /\ map text cs = planned_chunks max_size content.
Proof.
  intros embeddings_create storage max_size disk content Hc Hm Hall Hsame
         Hdir Hindex Hchunks.
  destruct (ingestion_reaches_writes embeddings_create storage max_size
              disk content Hc Hm Hall Hsame)
    as (index & cs & _ & Ht & Hrun).
  exists index, cs. split; [|exact Ht].
  now rewrite Hrun, write_artifacts_completes.
Qed.

Lemma ingestion_succeeds_witness :
  exists index cs,
    process_content_file_at Fixture.count_embedder Fixture.sound 5
      (Fixture.corpus "hello world")
    = (true,
       mkDisk (content_txt (Fixture.corpus "hello world"))
              (Stored index) (Stored cs))
    /\ map text cs = planned_chunks 5 (lit "hello world").
Proof.
  apply (ingestion_succeeds Fixture.count_embedder Fixture.sound 5
           (Fixture.corpus "hello world") (lit "hello world")).
  - reflexivity.
  - left. lia.
  - intros chunk _. eexists. reflexivity.
  - intros chunk chunk' v v' _ _ Hv Hv'.
    inversion Hv; inversion Hv'; reflexivity.
  - reflexivity.
  - reflexivity.
  - reflexivity.
Defined.

(** X18. A run is not atomic when a write fails.  When every chunk is
    embedded and the index file is written but the write of the chunk
    file fails, the run reports failure and yet leaves the new index in
    the index file, next to the chunk file of an earlier run or to what
    the failed write left of it.  The program started again on that disk
    finds the index file and goes to the session without ingesting. *)
Theorem failed_chunk_write_leaves_index :
  forall (embeddings_create : str -> outcome vector)
         (chat_create : str -> outcome str) (storage : Storage)
         (arith : float_format) (max_size : nat) (disk : Disk)
         (content : str) (e : exn) (damaged : bool),
    content_txt disk = Stored content ->
    0 < max_size \/ length content <= max_size ->
    (forall chunk,
        In chunk (planned_chunks max_size content) ->
        exists v, get_embedding embeddings_create chunk = Returned v) ->
    (forall chunk chunk' v v',
        In chunk (planned_chunks max_size content) ->
        In chunk' (planned_chunks max_size content) ->
        get_embedding embeddings_create chunk = Returned v ->
        get_embedding embeddings_create chunk' = Returned v' ->
        length v = length v') ->
    makedirs_result storage = Returned tt ->
    index_write storage = Written ->
    chunks_write storage = WriteFailed e damaged ->
    exists index cs disk',
      store_in_faiss cs = Returned (index, cs)
      /\ map text cs = planned_chunks max_size content
      /\ disk' = mkDisk (content_txt disk) (Stored index)
                        (if damaged then Unreadable
                         else embedded_chunks_pkl disk)
      /\ process_content_file_at embeddings_create storage max_size disk
         = (false, disk')
      /\ forall lines,
           main_block embeddings_create chat_create storage arith disk'
                      lines
           = (disk',
              Some (interactive_search embeddings_create chat_create arith
                      disk' lines)).
Proof.
  intros embeddings_create chat_create storage arith max_size disk content
         e damaged Hc Hm Hall Hsame Hdir Hindex Hchunks.
  destruct (ingestion_reaches_writes embeddings_create storage max_size
              disk content Hc Hm Hall Hsame)
    as (index & cs & Hst & Ht & Hrun).
  exists index, cs. eexists. split; [exact Hst|]. split; [exact Ht|].
  split; [reflexivity|]. split.
  - rewrite Hrun.
    unfold write_artifacts, io_bind, makedirs, write_index, pickle_dump.
    rewrite Hdir, Hindex, Hchunks. cbn.
    now destruct damaged.
  - intros lines. reflexivity.
Qed.

Lemma failed_chunk_write_leaves_index_witness :
  exists index cs disk',
    store_in_faiss cs = Returned (index, cs)
    /\ map text cs = planned_chunks 5 (lit "hello world")
    /\ disk' = mkDisk (content_txt Fixture.reingest) (Stored index)
                      Unreadable
    /\ process_content_file_at Fixture.count_embedder Fixture.torn 5
         Fixture.reingest
       = (false, disk')
    /\ forall lines,
         main_block Fixture.count_embedder Fixture.echo_chat Fixture.torn
                    binary64 disk' lines
         = (disk',
            Some (interactive_search Fixture.count_embedder
                    Fixture.echo_chat binary64 disk' lines)).
Proof.
  apply (failed_chunk_write_leaves_index
           Fixture.count_embedder Fixture.echo_chat Fixture.torn binary64
           5 Fixture.reingest (lit "hello world") OSError true).
  - reflexivity.
  - left. lia.
  - intros chunk _. eexists. reflexivity.
  - intros chunk chunk' v v' _ _ Hv Hv'.
    inversion Hv; inversion Hv'; reflexivity.
  - reflexivity.
  - reflexivity.
  - reflexivity.
Defined.
